(** * find_embedded_sql: a shallow embedding and its verified properties

    The script scans a directory tree, extracts SQL-looking fragments from
    every qualifying file with a regular expression, writes one feather
    artifact per batch of files, merges the artifacts into [results.feather]
    and prints a summary.  Every definition below follows one function of
    [find_embedded_sql.py]; the names are those of the script. *)

From Stdlib Require Import Strings.String Strings.Ascii Arith Lia List.
From Stdlib Require Import Sorting.Permutation Sorting.Sorted.
From Stdlib Require Structures.OrderedTypeEx.
From stdpp Require Import base option list sorting gmap strings.

Local Open Scope string_scope.
Local Open Scope list_scope.
Local Open Scope nat_scope.

(** ** Paths

    A [pathlib] path is its tuple of components ([Path.parts]). *)

Record Path := mkPath { parts : list string }.

(** [NUM_FILES_IN_BATCH = 100] *)
Definition NUM_FILES_IN_BATCH : nat := 100.

(** ** The batcher

    [yield_file_batches] keeps a buffer [files]; every incoming file is
    appended, and once [len(files) >= NUM_FILES_IN_BATCH] the buffer is
    yielded and replaced by a fresh one.  After the loop a non-empty buffer is
    yielded.  The generator is embedded as the list of what it yields; the
    batch size is a parameter so that the statement covers every setting of
    the constant. *)

Section Batcher.
Context {A : Type}.
Variable batch_size : nat.

Fixpoint yield_file_batches_from (files : list A) (incoming : list A)
  : list (list A) :=
  match incoming with
  | [] => match files with [] => [] | _ :: _ => [files] end
  | file :: incoming' =>
      let files' := files ++ [file] in
      if batch_size <=? length files'
      then files' :: yield_file_batches_from [] incoming'
      else yield_file_batches_from files' incoming'
  end.

Definition yield_file_batches (incoming : list A) : list (list A) :=
  yield_file_batches_from [] incoming.
End Batcher.

(** ** Paths as text

    [str(path)] joins the components with the separator; the root anchor is
    not followed by a separator, and the empty path prints as a dot. *)

Definition Path_str (p : Path) : string :=
  match parts p with
  | [] => "."
  | "/" :: rest => "/" ++ String.concat "/" rest
  | ps => String.concat "/" ps
  end.

(** [Path(val)]: the text is cut at every separator; empty components and
    single dots are dropped, a leading separator becomes the root anchor. *)

Fixpoint split_on (sep : ascii) (cur : string) (s : string) : list string :=
  match s with
  | EmptyString => [cur]
  | String a s' =>
      if Ascii.eqb a sep then cur :: split_on sep "" s'
      else split_on sep (cur ++ String a "") s'
  end.

Definition is_component (c : string) : bool :=
  negb (String.eqb c "") && negb (String.eqb c ".").

Definition Path_of_str (val : string) : Path :=
  let comps := List.filter is_component (split_on "/" "" val) in
  mkPath (if String.prefix "/" val then "/" :: comps else comps).

(** [path.name]: the final component, empty for the bare root and for the
    empty path. *)
Definition Path_name (p : Path) : string :=
  if bool_decide (parts p = ["/"]) then "" else List.last (parts p) "".

(** [str.rfind('.')] *)
Fixpoint rfind_dot_from (i : nat) (found : option nat) (s : string) : option nat :=
  match s with
  | EmptyString => found
  | String a s' =>
      rfind_dot_from (S i) (if Ascii.eqb a "." then Some i else found) s'
  end.

Definition rfind_dot (s : string) : option nat := rfind_dot_from 0 None s.

(** [path.suffix]: with [i = name.rfind('.')], the text from [i] on when
    [0 < i < len(name) - 1], and the empty text otherwise. *)
Definition Path_suffix (p : Path) : string :=
  let name := Path_name p in
  match rfind_dot name with
  | Some i =>
      if (0 <? i) && (i <? String.length name - 1)
      then String.substring i (String.length name - i) name
      else ""
  | None => ""
  end.

(** ** The file enumerator

    [glob('**/*')] hands over the entries of the tree; whether an entry is a
    directory is a question to the file system ([is_dir]).
    [REASONS_TO_SKIP_FILE] is the list of skip predicates of the script. *)

Section Enumerator.
Variable is_dir : Path -> bool.

Definition REASONS_TO_SKIP_FILE : list (Path -> bool) :=
  [ (fun file_path => is_dir file_path);
    (fun file_path => bool_decide (".git" ∈ parts file_path)) ].

(** [any([reason(file) for reason in REASONS_TO_SKIP_FILE])] *)
Definition any (bs : list bool) : bool := existsb (fun b => b) bs.

Definition skip_file (target_exts : option (list string)) (file : Path) : bool :=
  any (List.map (fun reason_to_skip_file => reason_to_skip_file file)
                REASONS_TO_SKIP_FILE)
  || match target_exts with
     | Some exts => negb (bool_decide (Path_suffix file ∈ exts))
     | None => false
     end.

Fixpoint yield_files (target_exts : option (list string)) (glob : list Path)
  : list Path :=
  match glob with
  | [] => []
  | file :: glob' =>
      if skip_file target_exts file then yield_files target_exts glob'
      else file :: yield_files target_exts glob'
  end.
End Enumerator.

(** ** File content as text

    [str(open(file,'rb').read())] is the printed form of a bytes object:
    a [b] prefix, a quote, every byte escaped as the interpreter's bytes
    printer does, and the closing quote.  The quote is the single quote unless
    the buffer holds a single quote and no double quote. *)

Definition squote : ascii := ascii_of_nat 39.
Definition dquote : ascii := ascii_of_nat 34.
Definition backslash : ascii := ascii_of_nat 92.

Definition hexdigits : string := "0123456789abcdef".

Definition hexdigit (n : nat) : ascii :=
  match String.get n hexdigits with Some a => a | None => "0"%char end.

Definition repr_byte (quote : ascii) (c : Byte.byte) : string :=
  let a := ascii_of_byte c in
  let n := nat_of_ascii a in
  if Ascii.eqb a quote || Ascii.eqb a backslash
  then String backslash (String a "")
  else if n =? 9 then String backslash "t"
  else if n =? 10 then String backslash "n"
  else if n =? 13 then String backslash "r"
  else if (n <? 32) || (127 <=? n)
  then String backslash
         (String "x" (String (hexdigit (n / 16)) (String (hexdigit (n mod 16)) "")))
  else String a "".

Definition has_byte (a : ascii) (bs : list Byte.byte) : bool :=
  existsb (fun c => Ascii.eqb (ascii_of_byte c) a) bs.

Definition repr_quote (bs : list Byte.byte) : ascii :=
  if has_byte squote bs && negb (has_byte dquote bs) then dquote else squote.

Fixpoint repr_body (quote : ascii) (bs : list Byte.byte) : string :=
  match bs with
  | [] => ""
  | c :: bs' => repr_byte quote c ++ repr_body quote bs'
  end.

(** [str(b)] for a bytes object [b]. *)
Definition bytes_str (bs : list Byte.byte) : string :=
  let quote := repr_quote bs in
  String "b" (String quote (repr_body quote bs ++ String quote "")).

(** [str.upper()] on the characters the printed form can hold. *)
Definition upper_ascii (a : ascii) : ascii :=
  let n := nat_of_ascii a in
  if (97 <=? n) && (n <=? 122) then ascii_of_nat (n - 32) else a.

Fixpoint upper (s : string) : string :=
  match s with
  | EmptyString => EmptyString
  | String a s' => String (upper_ascii a) (upper s')
  end.

(** ** The pattern

    [r'SELECT .+?FROM.+?;'] is a sequence of literal characters and two lazy
    one-or-more repetitions of the dot.  The matcher is the backtracking one
    of [re]: items are tried left to right, a lazy repetition first tries the
    rest of the pattern after one character and takes one more character only
    when the rest fails; the dot takes anything but a line feed. *)

Inductive re_item :=
| Lit (c : ascii)
| LazyDotPlus.

Definition literal (s : string) : list re_item :=
  List.map Lit (list_ascii_of_string s).

Definition SQL_PATTERN : list re_item :=
  literal "SELECT " ++ [LazyDotPlus] ++ literal "FROM" ++ [LazyDotPlus]
    ++ literal ";".

Definition line_feed : ascii := ascii_of_nat 10.

(** Length of the match that starts at the head of the text, if any. *)
Fixpoint match_here (p : list re_item) : string -> option nat :=
  match p with
  | [] => fun _ => Some 0
  | Lit c :: p' => fun s =>
      match s with
      | String a s' =>
          if Ascii.eqb a c then option_map S (match_here p' s') else None
      | EmptyString => None
      end
  | LazyDotPlus :: p' =>
      fix lazy (s : string) : option nat :=
        match s with
        | EmptyString => None
        | String a s' =>
            if Ascii.eqb a line_feed then None
            else match match_here p' s' with
                 | Some n => Some (S n)
                 | None => option_map S (lazy s')
                 end
        end
  end.

(** [re.finditer]: scan from the left; after a match the scan resumes at
    its end.  [skip] counts the characters of the last match still to pass;
    the value is [match.group(0)]. *)
Fixpoint finditer_from (p : list re_item) (skip : nat) (s : string) : list string :=
  match s with
  | EmptyString =>
      match skip, match_here p EmptyString with
      | 0, Some _ => [EmptyString]
      | _, _ => []
      end
  | String _ s' =>
      match skip with
      | S k => finditer_from p k s'
      | 0 =>
          match match_here p s with
          | Some n => String.substring 0 n s :: finditer_from p (n - 1) s'
          | None => finditer_from p 0 s'
          end
      end
  end.

Definition finditer (p : list re_item) (s : string) : list string :=
  finditer_from p 0 s.

(** ** Tables

    A data frame with the columns [Filepath] and [Sql] is the list of its
    rows; [pd.concat(..., ignore_index=True)] is list append, and a feather
    file holds the table written to it. *)

Record MatchRecord := mkRow { Filepath : string; Sql : string }.

Abbreviation DataFrame := (list MatchRecord).

#[global] Instance MatchRecord_eq_dec : EqDecision MatchRecord.
Proof. solve_decision. Defined.

(** [df.empty] *)
Definition empty (df : DataFrame) : bool :=
  match df with [] => true | _ :: _ => false end.

(** ** Exceptions

    A call either returns or raises; an exception is represented by its
    message, and [traceback.format_exc()] by the text built from it. *)

Definition Exception := string.

Inductive outcome (A : Type) :=
| Return (a : A)
| Raised (e : Exception).

Arguments Return {A} a.
Arguments Raised {A} e.

Definition format_exc (e : Exception) : string :=
  "Traceback (most recent call last): " ++ e.

(** What a worker meets outside the program: the bytes (or the failure) a
    read gives, the identifiers [uuid.uuid4()] draws one after the other, and
    whether writing a table to a path fails. *)
Record Env := mkEnv {
  read_bytes : Path -> outcome (list Byte.byte);
  uuid4 : nat -> string;
  to_feather_error : string -> DataFrame -> option Exception
}.

(** ** FileProcessor *)

Section FileProcessor.
Variable env : Env.

(** [process_file]: rows are added at the end of the container, one per
    match, in the order of the matches. *)
Definition process_file (file : Path) : outcome DataFrame :=
  match read_bytes env file with
  | Raised e => Raised e
  | Return bytes =>
      let file_content := upper (bytes_str bytes) in
      Return (fold_left
                (fun result_container m =>
                   result_container ++ [mkRow (Path_str file) m])
                (finditer SQL_PATTERN file_content) [])
  end.

(** [yield_processing_results]: one pair per file, the exception of a file
    caught and turned into text. *)
Definition yield_processing_results (files : list Path)
  : list (option DataFrame * option string) :=
  List.map (fun file =>
              match process_file file with
              | Return r => (Some r, None)
              | Raised e => (None, Some (format_exc e))
              end) files.

Definition add_result_to_container (process_result result_container : DataFrame)
  : DataFrame :=
  process_result ++ result_container.

(** [process_exception]: a non-empty text is logged as an error. *)
Definition process_exception (process_exec : option string) (log : list string)
  : list string :=
  match process_exec with
  | Some e =>
      if String.eqb e "" then log
      else log ++ [("Exception while processing file: " ++ e)%string]
  | None => log
  end.

(** The body of the [for] loop of [process_files]. *)
Definition absorb (acc : DataFrame * list string)
           (item : option DataFrame * option string) : DataFrame * list string :=
  let '(result_container, log) := acc in
  let '(process_result, processing_exception) := item in
  match process_result with
  | Some r =>
      if negb (empty r)
      then (add_result_to_container r result_container, log)
      else (result_container, process_exception processing_exception log)
  | None => (result_container, process_exception processing_exception log)
  end.

(** The batch-level table and the log once the loop has run. *)
Definition batch_table (files : list Path) : DataFrame * list string :=
  fold_left absorb (yield_processing_results files) ([], []).

(** [Path(tmp_dir).joinpath(file_name)], as text: the components of the
    name follow those of the directory, and a name that begins with the
    separator stands alone. *)
Definition joinpath (tmp_dir file_name : string) : string :=
  Path_str (if String.prefix "/" file_name then Path_of_str file_name
            else mkPath (parts (Path_of_str tmp_dir)
                         ++ parts (Path_of_str file_name))).

(** [generate_temp_file_path]: draw identifiers until one names a path
    that does not exist.  The loop of the script has no bound; [fuel]
    bounds the number of draws and [None] means the bound was reached. *)
Fixpoint generate_temp_file_path (fuel : nat) (tmp_dir : string)
         (disk : gmap string DataFrame) (draw : nat) : option string :=
  match fuel with
  | 0 => None
  | S fuel' =>
      let file_name := uuid4 env draw in
      let file_path := joinpath tmp_dir file_name in
      match disk !! file_path with
      | None => Some file_path
      | Some _ => generate_temp_file_path fuel' tmp_dir disk (S draw)
      end
  end.

(** [write_results] *)
Definition write_results (result_container : DataFrame) (file_path : string)
           (disk : gmap string DataFrame) : outcome (gmap string DataFrame) :=
  match to_feather_error env file_path result_container with
  | Some e => Raised e
  | None => Return (<[file_path := result_container]> disk)
  end.

(** What a finished call of [process_files] leaves: the returned pair, the
    disk and the log. *)
Record Completed := mkCompleted {
  returned : option string * option string;
  disk_after : gmap string DataFrame;
  logged : list string
}.

(** The [try] block of [process_files]. *)
Definition process_files_try (fuel : nat) (tmp_dir : string) (files : list Path)
           (disk : gmap string DataFrame)
  : option (outcome (option string) * gmap string DataFrame * list string) :=
  let '(result_container, log) := batch_table files in
  if negb (empty result_container) then
    match generate_temp_file_path fuel tmp_dir disk 0 with
    | None => None
    | Some file_path =>
        match write_results result_container file_path disk with
        | Return disk' => Some (Return (Some file_path), disk', log)
        | Raised e => Some (Raised e, disk, log)
        end
    end
  else Some (Return None, disk, log).

(** [process_files]: the [except] clause turns a raised exception into the
    second component of the pair. *)
Definition process_files (fuel : nat) (tmp_dir : string) (files : list Path)
           (disk : gmap string DataFrame) : option Completed :=
  match process_files_try fuel tmp_dir files disk with
  | None => None
  | Some (Return file_path, disk', log) =>
      Some (mkCompleted (file_path, None) disk' log)
  | Some (Raised e, disk', log) =>
      Some (mkCompleted (None, Some (format_exc e)) disk' log)
  end.
End FileProcessor.

(** ** The result store

    The disk maps the text of a path to the table of the file it names.
    The store is named relative to the working directory; the artifacts are
    named inside the temporary directory, which [tempfile] creates afresh
    and names by an absolute path, so that two texts name two files. *)

Definition RESULTS_DF : string := "results.feather".

(** [save_results]: returns the disk and what was printed. *)
Definition save_results (file_path : string) (disk : gmap string DataFrame)
  : gmap string DataFrame * list string :=
  match disk !! file_path with
  | Some artifact =>
      match disk !! RESULTS_DF with
      | Some store => (<[RESULTS_DF := store ++ artifact]> disk, [])
      | None => (<[RESULTS_DF := artifact]> disk, [])
      end
  | None => (disk, [(file_path ++ " doesn't exist!")%string])
  end.

(** The rows of the store, none when the file is absent. *)
Definition store_rows (disk : gmap string DataFrame) : DataFrame :=
  match disk !! RESULTS_DF with Some df => df | None => [] end.

(** The rows of the artifact at a path. *)
Definition artifact_rows (disk : gmap string DataFrame) (file_path : string)
  : DataFrame :=
  match disk !! file_path with Some df => df | None => [] end.

(** Merging a sequence of artifacts, one after the other. *)
Definition save_all (file_paths : list string) (disk : gmap string DataFrame)
  : gmap string DataFrame :=
  fold_left (fun d file_path => fst (save_results file_path d)) file_paths disk.

(** ** The reporter *)

(** [groupby(key).size()]: one row per distinct key with the number of rows
    that carry it, the keys in ascending order. *)
Fixpoint group_add (key : string) (groups : list (string * nat))
  : list (string * nat) :=
  match groups with
  | [] => [(key, 1)]
  | (k, c) :: groups' =>
      match String.compare key k with
      | Eq => (k, S c) :: groups'
      | Lt => (key, 1) :: groups
      | Gt => (k, c) :: group_add key groups'
      end
  end.

Definition groupby_size (keys : list string) : list (string * nat) :=
  fold_left (fun groups key => group_add key groups) keys [].

(** [df['Filename'] = df['Filepath'].apply(lambda val: Path(val).name)] *)
Definition Filename (row : MatchRecord) : string :=
  Path_name (Path_of_str (Filepath row)).

(** What [provide_output] prints: the short message, or the summary with the
    number of rows, the number of distinct file paths, the table of file
    names and the [Count] column that [describe()] summarises. *)
Inductive printed :=
| NoSqlFound
| Summary (total : nat) (nfiles : nat)
          (filename_freqs : list (string * nat)) (freq_data : list nat).

Section Reporter.
(** [sort_values('Count', ascending=False)]: the sort is the data frame
    library's; the script relies on no more than its contract. *)
Variable sort_values : list (string * nat) -> list (string * nat).

Definition filename_freqs (df : DataFrame) : list (string * nat) :=
  let freqs := sort_values (groupby_size (List.map Filename df)) in
  if 10 <=? length freqs then take 10 freqs else freqs.

Definition provide_output (disk : gmap string DataFrame)
  : printed * gmap string DataFrame :=
  match disk !! RESULTS_DF with
  | Some df =>
      (Summary (length df)
               (length (remove_dups (List.map Filepath df)))
               (filename_freqs df)
               (List.map snd (groupby_size (List.map Filepath df))),
       disk)
  | None => (NoSqlFound, disk)
  end.
End Reporter.

(** A sort that meets the contract: insertion by descending count, rows with
    equal counts kept in their order. *)
Fixpoint insert_desc (x : string * nat) (l : list (string * nat))
  : list (string * nat) :=
  match l with
  | [] => [x]
  | y :: l' => if snd y <=? snd x then x :: l else y :: insert_desc x l'
  end.

Definition sort_values_desc (l : list (string * nat)) : list (string * nat) :=
  fold_right insert_desc [] l.

(** Descending order of the [Count] column. *)
Definition count_ge (x y : string * nat) : Prop := snd y <= snd x.

(** Number of rows that carry a file name, and number of rows of a file. *)
Definition name_count (df : DataFrame) (name : string) : nat :=
  length (List.filter (fun row => String.eqb (Filename row) name) df).

Definition file_count (df : DataFrame) (path : string) : nat :=
  length (List.filter (fun row => String.eqb (Filepath row) path) df).

(** ** The run

    The main block deletes the store, hands every batch to a worker and
    merges what the workers return in the order in which they finish.  A
    state holds the disk and the pairs returned by finished workers that the
    collector has not yet taken; a call of [process_files] and the handling
    of one returned pair are one step each. *)

Record State := mkState {
  st_disk : gmap string DataFrame;
  st_pending : list (option string * option string)
}.

(** [if RESULTS_DF.exists(): RESULTS_DF.unlink()] *)
Definition reset (disk : gmap string DataFrame) : gmap string DataFrame :=
  delete RESULTS_DF disk.

(** The body of the collecting loop: [save_results] and [unlink] for a
    returned path, nothing on the disk otherwise. *)
Definition collect (ret : option string * option string)
           (disk : gmap string DataFrame) : gmap string DataFrame :=
  match fst ret with
  | Some file_path => delete file_path (fst (save_results file_path disk))
  | None => disk
  end.

Inductive step (tmp_dir : string) : State -> State -> Prop :=
| step_worker env fuel files st done :
    process_files env fuel tmp_dir files (st_disk st) = Some done ->
    step tmp_dir st
         (mkState (disk_after done) (st_pending st ++ [returned done]))
| step_collect st before ret after :
    st_pending st = before ++ ret :: after ->
    step tmp_dir st (mkState (collect ret (st_disk st)) (before ++ after)).

Inductive reachable (tmp_dir : string) (disk0 : gmap string DataFrame)
  : State -> Prop :=
| reachable_start : reachable tmp_dir disk0 (mkState (reset disk0) [])
| reachable_step st st' :
    reachable tmp_dir disk0 st -> step tmp_dir st st' ->
    reachable tmp_dir disk0 st'.

(** ** Vocabulary of the statements about a worker *)

(** The rows a file contributes to its batch: its matches when it can be
    read, nothing when reading it raises. *)
Definition rows_of (env : Env) (file : Path) : DataFrame :=
  match process_file env file with
  | Return r => r
  | Raised _ => []
  end.

Definition readable (env : Env) (file : Path) : bool :=
  match read_bytes env file with
  | Return _ => true
  | Raised _ => false
  end.

(** The error lines of a batch: one for each file that raised. *)
Definition error_line (env : Env) (file : Path) : list string :=
  match process_file env file with
  | Return _ => []
  | Raised e => [("Exception while processing file: " ++ format_exc e)%string]
  end.

(** A batch of three files, the first of which cannot be read. *)
Definition locked_file : Path := mkPath ["src"; "locked.sql"].
Definition x_file : Path := mkPath ["src"; "x.sql"].
Definition y_file : Path := mkPath ["src"; "y.sql"].

Definition three_files_env : Env :=
  mkEnv (fun file =>
           if String.eqb (Path_str file) "src/locked.sql"
           then Raised "PermissionError: [Errno 13] Permission denied"
           else if String.eqb (Path_str file) "src/x.sql"
           then Return (list_byte_of_string "select a from t;")
           else Return (list_byte_of_string "select b from u;"))
        (fun _ => "u1")
        (fun _ _ => None).

Definition three_files_table : DataFrame :=
  [mkRow "src/y.sql" "SELECT B FROM U;"; mkRow "src/x.sql" "SELECT A FROM T;"].

Definition three_files_done : Completed :=
  mkCompleted (Some "/tmp/w/u1", None)
              (<["/tmp/w/u1" := three_files_table]> ∅)
              [("Exception while processing file: "
                ++ format_exc "PermissionError: [Errno 13] Permission denied")%string].

(** ** Vocabulary of the statements about the extractor *)

Fixpoint all_chars (P : ascii -> bool) (s : string) : bool :=
  match s with
  | EmptyString => true
  | String a s' => P a && all_chars P s'
  end.

(** The printable characters of ASCII, from the space to the tilde. *)
Definition printable (a : ascii) : bool :=
  (32 <=? nat_of_ascii a) && (nat_of_ascii a <=? 126).

(** What stands for a byte above 127 in the text that is searched: a
    backslash, an [X] and the two hexadecimal digits of the byte. *)
Definition placeholder (c : Byte.byte) : string :=
  let n := nat_of_ascii (ascii_of_byte c) in
  String backslash
    (String "X" (String (upper_ascii (hexdigit (n / 16)))
                        (String (upper_ascii (hexdigit (n mod 16))) ""))).

(** The bytes of the example of the specification, and an environment in
    which every read returns a given buffer. *)
Definition two_statements : list Byte.byte :=
  list_byte_of_string "select a from t; SELECT b FROM u WHERE x;".

Definition reading (bytes : list Byte.byte) : Env :=
  mkEnv (fun _ => Return bytes) (fun _ => "u1") (fun _ _ => None).

(** ** Vocabulary of the statements about the enumerator *)

(** The three entries of the example, below a directory [root]. *)
Definition entry (root : list string) (name : string) : Path :=
  mkPath (root ++ [name]).

Definition three_entries (root : list string) : list Path :=
  [entry root "a.sql"; entry root "a.txt"; entry root "a.SQL"].

(** ** Vocabulary of the statements about the reporter *)

(** Total of the [Count] column over the rows of a group table that carry a
    key. *)
Definition count_in (groups : list (string * nat)) (key : string) : nat :=
  sum_list_with (fun g => if String.eqb (fst g) key then snd g else 0) groups.

(** Number of occurrences of a key in a column. *)
Definition occurrences (key : string) (keys : list string) : nat :=
  length (List.filter (fun k => String.eqb k key) keys).

(** Ascending order of the keys of a group table. *)
Definition key_lt (x y : string * nat) : Prop :=
  String.compare (fst x) (fst y) = Lt.

(** Fifteen files with one match each, all with the same file name. *)
Definition fifteen_files : DataFrame :=
  List.map (fun d => mkRow (d ++ "/q.sql") "SELECT A FROM T;")
           ["d01"; "d02"; "d03"; "d04"; "d05"; "d06"; "d07"; "d08";
            "d09"; "d10"; "d11"; "d12"; "d13"; "d14"; "d15"].

(** A store file that exists and holds no row. *)
Definition disk_with_empty_store : gmap string DataFrame :=
  <[RESULTS_DF := []]> ∅.

(** ** Vocabulary of the statements about the batcher *)

(** [ceil(n / b)] on naturals. *)
Definition ceil_div (n b : nat) : nat := (n + b - 1) / b.

(** The size the last batch must have. *)
Definition last_batch_size (n b : nat) : nat :=
  if n mod b =? 0 then b else n mod b.

(** ** Vocabulary of the statements about the run *)

(** The invariant of the run: the store, when it exists, has a row; the
    paths returned by workers and not yet collected are pairwise distinct
    and each names a table with a row. *)
Definition pending_paths (pending : list (option string * option string))
  : list string :=
  omap fst pending.

Definition run_invariant (st : State) : Prop :=
  (forall df, st_disk st !! RESULTS_DF = Some df -> df <> []) /\
  NoDup (pending_paths (st_pending st)) /\
  (forall p, p ∈ pending_paths (st_pending st) ->
             exists df, st_disk st !! p = Some df /\ df <> []).

(** A store with one row and one artifact with one row. *)
Definition disk_with_store : gmap string DataFrame :=
  <[RESULTS_DF := [mkRow "src/a.sql" "SELECT A FROM T;"]]>
    (<["/tmp/w/u1" := [mkRow "src/b.sql" "SELECT B FROM U;"]]> ∅).

(** A run on an empty disk: one worker, one file, one collection. *)
Definition demo_env : Env :=
  mkEnv (fun _ => Return (list_byte_of_string "select a from t;"))
        (fun _ => "u1")
        (fun _ _ => None).

Definition demo_file : Path := mkPath ["src"; "a.sql"].

Definition demo_row : MatchRecord := mkRow "src/a.sql" "SELECT A FROM T;".

Definition demo_done : Completed :=
  mkCompleted (Some "/tmp/w/u1", None) (<["/tmp/w/u1" := [demo_row]]> (reset ∅)) [].

Definition demo_final : State :=
  mkState (collect (returned demo_done) (disk_after demo_done)) ([] ++ []).

(** ** The collector

    [yield_completed_futures] passes over the outstanding futures again and
    again; in a pass every future that answers [ready()] is yielded and noted,
    after the pass the noted futures are removed from the list, and when
    futures are left the loop sleeps before the next pass.  Whether a future
    is ready depends on when it is asked: [ready n f] is the answer to the
    [n]-th question of the loop.  [list.remove] raises when the element is not
    in the list. *)

Section Collector.
Context {Future : Type} `{EqDecision Future}.
Variable ready : nat -> Future -> bool.

(** [futures.remove(future)]: the first equal element goes; [None] stands
    for the [ValueError] of a missing element. *)
Fixpoint list_remove (future : Future) (futures : list Future)
  : option (list Future) :=
  match futures with
  | [] => None
  | f :: futures' =>
      if decide (future = f) then Some futures'
      else option_map (cons f) (list_remove future futures')
  end.

(** [for future in futures_to_remove: futures.remove(future)] *)
Fixpoint remove_futures (futures_to_remove futures : list Future)
  : option (list Future) :=
  match futures_to_remove with
  | [] => Some futures
  | future :: rest =>
      match list_remove future futures with
      | Some futures' => remove_futures rest futures'
      | None => None
      end
  end.

(** One pass of the inner [for] loop: the futures yielded, in order, and
    the number of questions asked so far. *)
Fixpoint poll_pass (asked : nat) (futures : list Future) : list Future * nat :=
  match futures with
  | [] => ([], asked)
  | future :: futures' =>
      let '(yielded, asked') := poll_pass (S asked) futures' in
      if ready asked future then (future :: yielded, asked')
      else (yielded, asked')
  end.

(** The loop: the futures yielded, in order, and the number of sleeps.
    [fuel] bounds the number of passes; [None] means the bound was reached. *)
Fixpoint yield_completed_futures (fuel asked : nat) (futures : list Future)
  : option (outcome (list Future * nat)) :=
  match futures with
  | [] => Some (Return ([], 0))
  | _ :: _ =>
      match fuel with
      | 0 => None
      | S fuel' =>
          let '(yielded, asked') := poll_pass asked futures in
          match remove_futures yielded futures with
          | None => Some (Raised "ValueError: list.remove(x): x not in list")
          | Some futures' =>
              let sleeps := match futures' with [] => 0 | _ :: _ => 1 end in
              match yield_completed_futures fuel' asked' futures' with
              | Some (Return (later, n)) =>
                  Some (Return (yielded ++ later, sleeps + n))
              | Some (Raised e) => Some (Raised e)
              | None => None
              end
          end
      end
  end.
End Collector.

(** ** Runs with their history

    The same steps as [step], with the list of the worker calls made so
    far. *)





(** [for future in yield_completed_futures(futures)]: the body of the main
    loop applied to the returned pairs, in the order given. *)
Definition collect_all (rets : list (option string * option string))
           (disk : gmap string DataFrame) : gmap string DataFrame :=
  fold_left (fun d ret => collect ret d) rets disk.

(** ** Vocabulary of the further statements *)

Definition is_lower (a : ascii) : bool :=
  (97 <=? nat_of_ascii a) && (nat_of_ascii a <=? 122).

(** What every character of a match is: printable and not a lowercase
    letter. *)
Definition upper_printable (a : ascii) : bool :=
  printable a && negb (is_lower a).

(** The last character of a text. *)
Definition last_char (s : string) : option ascii :=
  String.get (String.length s - 1) s.

(** A match as the pattern leaves it. *)
Definition well_formed_match (m : string) : Prop :=
  String.prefix "SELECT " m = true /\
  last_char m = Some ";"%char /\
  14 <= String.length m /\
  all_chars upper_printable m = true.

Definition has_slash (s : string) : bool :=
  negb (all_chars (fun a => negb (Ascii.eqb a "/")) s).

(** A component of a path as a walk gives it: not empty, not a single dot,
    without a separator. *)
Definition component_ok (c : string) : Prop :=
  c <> "" /\ c <> "." /\ has_slash c = false.

(** A path as a walk gives it: components, after the root anchor if any. *)
Definition path_ok (p : Path) : Prop :=
  Forall component_ok (parts p) \/
  exists rest, parts p = "/" :: rest /\ Forall component_ok rest.




(** Texts that occur one after the other, without overlap, in a text. *)
Fixpoint in_order (s : string) (ms : list string) : Prop :=
  match ms with
  | [] => True
  | m :: ms' =>
      exists pre rest, s = (pre ++ m ++ rest)%string /\ in_order rest ms'
  end.

(** ** Vocabulary of the statements about the text that is searched *)

(** The text the words "byte-decoded content" describe, to be compared with
    the text [process_file] searches: an ASCII byte is its character, any
    other byte a question mark. *)
Definition decode_byte (c : Byte.byte) : ascii :=
  let a := ascii_of_byte c in
  if nat_of_ascii a <? 128 then a else "?"%char.

Definition decoded_content (bytes : list Byte.byte) : string :=
  string_of_list_ascii (List.map decode_byte bytes).

(** A statement on two lines. *)
Definition two_lines : list Byte.byte :=
  list_byte_of_string "select a" ++ [Byte.x0a] ++ list_byte_of_string "from t;".

(** How a byte stands in the text that is searched: the backslash and the
    quote in use after a backslash; tab, line feed and carriage return as a
    backslash and a letter; every other byte below 32 or above 126 as its
    placeholder; any other byte as its character, uppercased. *)
Definition printed_byte (quote : ascii) (c : Byte.byte) : string :=
  let a := ascii_of_byte c in
  let n := nat_of_ascii a in
  if n =? 92 then String backslash (String backslash "")
  else if Ascii.eqb a quote then String backslash (String a "")
  else if n =? 9 then String backslash "T"
  else if n =? 10 then String backslash "N"
  else if n =? 13 then String backslash "R"
  else if (n <? 32) || (127 <=? n) then placeholder c
  else String (upper_ascii a) "".

Fixpoint printed_body (quote : ascii) (bytes : list Byte.byte) : string :=
  match bytes with
  | [] => ""
  | c :: bytes' => (printed_byte quote c ++ printed_body quote bytes')%string
  end.

(** What a left-to-right scan for a pattern finds in a text: nothing when
    the pattern matches at no position; otherwise the match at the first
    position where the pattern matches, and what the scan finds in the text
    after that match. *)
Inductive scanned (p : list re_item) : string -> list string -> Prop :=
| scanned_none s :
    (forall pre post, s = (pre ++ post)%string -> match_here p post = None) ->
    scanned p s []
| scanned_match pre m rest ms :
    (forall x y, pre = (x ++ y)%string -> y <> "" ->
                 match_here p (y ++ m ++ rest) = None) ->
    match_here p (m ++ rest) = Some (String.length m) ->
    m <> "" ->
    scanned p rest ms ->
    scanned p (pre ++ m ++ rest) (m :: ms).








(** * Properties *)

(** ** The batcher *)

Section BatcherFacts.
Context {A : Type}.
Variable B : nat.
Hypothesis B_pos : 0 < B.

(** While the buffer is short of a full batch, the loop either ends with
    one short batch or completes the buffer from the head of the input. *)
Lemma yield_file_batches_from_short (files incoming : list A) :
  length files < B ->
  length files + length incoming < B ->
  yield_file_batches_from B files incoming =
    match files ++ incoming with [] => [] | _ :: _ => [files ++ incoming] end.
Proof.
  revert files. induction incoming as [|x xs IH]; intros files Hf Hlen; simpl.
  - rewrite app_nil_r. reflexivity.
  - simpl in Hlen.
    destruct (Nat.leb_spec B (length (files ++ [x]))) as [Hge|Hlt].
    + rewrite length_app in Hge. simpl in Hge. lia.
    + rewrite IH.
      * rewrite <- app_assoc. reflexivity.
      * exact Hlt.
      * rewrite length_app. simpl. lia.
Qed.

Lemma yield_file_batches_from_full (files incoming : list A) :
  length files < B ->
  B <= length files + length incoming ->
  yield_file_batches_from B files incoming =
    (files ++ take (B - length files) incoming)
      :: yield_file_batches B (drop (B - length files) incoming).
Proof.
  revert files. induction incoming as [|x xs IH]; intros files Hf Hlen; simpl.
  - simpl in Hlen. lia.
  - simpl in Hlen.
    destruct (Nat.leb_spec B (length (files ++ [x]))) as [Hge|Hlt];
      rewrite length_app in *; simpl in *.
    + replace (B - length files) with 1 by lia. reflexivity.
    + rewrite IH; rewrite ?length_app; simpl; try lia.
      replace (B - length files) with (S (B - (length files + 1))) by lia.
      simpl. rewrite <- app_assoc. reflexivity.
Qed.

(** The unfolding the properties are proved from. *)
Lemma yield_file_batches_unfold (l : list A) :
  yield_file_batches B l =
    if length l <? B
    then match l with [] => [] | _ :: _ => [l] end
    else take B l :: yield_file_batches B (drop B l).
Proof.
  unfold yield_file_batches at 1.
  destruct (Nat.ltb_spec (length l) B) as [Hlt|Hge].
  - rewrite yield_file_batches_from_short; simpl; auto.
  - rewrite yield_file_batches_from_full; simpl; auto.
    rewrite Nat.sub_0_r. reflexivity.
Qed.

Lemma ceil_div_small n : 0 < n -> n < B -> ceil_div n B = 1.
Proof.
  intros Hn Hlt. unfold ceil_div.
  replace (n + B - 1) with ((n - 1) + 1 * B) by lia.
  rewrite Nat.div_add by lia. rewrite Nat.div_small by lia. reflexivity.
Qed.

Lemma ceil_div_step n : B <= n -> ceil_div n B = S (ceil_div (n - B) B).
Proof.
  intros Hge. unfold ceil_div.
  replace (n + B - 1) with ((n - B + B - 1) + 1 * B) by lia.
  rewrite Nat.div_add by lia. lia.
Qed.

Lemma last_batch_size_step n : B <= n ->
  last_batch_size n B = last_batch_size (n - B) B.
Proof.
  intros Hge. unfold last_batch_size.
  assert (Hmod : n mod B = (n - B) mod B).
  { replace n with ((n - B) + 1 * B) at 1 by lia.
    apply Nat.Div0.mod_add. }
  rewrite Hmod. reflexivity.
Qed.

Lemma yield_file_batches_concat (l : list A) :
  concat (yield_file_batches B l) = l.
Proof.
  remember (length l) as n eqn:Hn. revert l Hn.
  induction n as [n IH] using lt_wf_ind. intros l Hn.
  rewrite yield_file_batches_unfold.
  destruct (Nat.ltb_spec (length l) B) as [Hlt|Hge].
  - destruct l; simpl; rewrite ?app_nil_r; reflexivity.
  - simpl. rewrite (IH (length (drop B l))).
    + apply take_drop.
    + rewrite length_drop. lia.
    + reflexivity.
Qed.

Lemma yield_file_batches_length (l : list A) :
  length (yield_file_batches B l) = ceil_div (length l) B.
Proof.
  remember (length l) as n eqn:Hn. revert l Hn.
  induction n as [n IH] using lt_wf_ind. intros l Hn.
  rewrite yield_file_batches_unfold.
  destruct (Nat.ltb_spec (length l) B) as [Hlt|Hge].
  - destruct l as [|x l].
    + subst n. simpl. unfold ceil_div. simpl.
      rewrite Nat.div_small by lia. reflexivity.
    + rewrite ceil_div_small; subst n; simpl in *; auto with arith.
  - simpl. rewrite (IH (length (drop B l))); rewrite ?length_drop; try lia.
    subst n. rewrite (ceil_div_step (length l)) by lia. reflexivity.
Qed.

(** Every batch but the last is full; the last one has the remainder. *)
Lemma yield_file_batches_sizes (l : list A) :
  forall i b, yield_file_batches B l !! i = Some b ->
    if S i =? length (yield_file_batches B l)
    then length b = last_batch_size (length l) B
    else length b = B.
Proof.
  remember (length l) as n eqn:Hn. revert l Hn.
  induction n as [n IH] using lt_wf_ind. intros l Hn i b.
  rewrite yield_file_batches_unfold.
  destruct (Nat.ltb_spec (length l) B) as [Hlt|Hge].
  - destruct l as [|x l]; [intros H; discriminate|].
    destruct i as [|i]; simpl; [|intros H; discriminate].
    intros [= <-]. unfold last_batch_size. subst n.
    rewrite Nat.mod_small by exact Hlt. simpl. reflexivity.
  - destruct i as [|i]; simpl.
    + intros [= <-]. rewrite length_take.
      rewrite yield_file_batches_length, length_drop.
      destruct (ceil_div (length l - B) B) eqn:Hz; simpl; [|lia].
      unfold ceil_div in Hz.
      assert (Hz' : length l - B + B - 1 < B).
      { apply Nat.div_small_iff; [lia | exact Hz]. }
      assert (H : length l = B) by lia.
      unfold last_batch_size. subst n. rewrite H.
      rewrite Nat.Div0.mod_same. simpl. lia.
    + intros Hb.
      specialize (IH (length (drop B l))).
      rewrite length_drop in IH.
      specialize (IH ltac:(lia) (drop B l) ltac:(symmetry; apply length_drop) i b Hb).
      change (if S i =? length (yield_file_batches B (drop B l))
              then length b = last_batch_size n B else length b = B).
      revert IH.
      destruct (S i =? length (yield_file_batches B (drop B l))); auto.
      intros ->. subst n. symmetry. apply last_batch_size_step; lia.
Qed.
End BatcherFacts.

(** C1. For a batch size [B > 0] and an input of [N] files the batcher
    yields [ceil(N/B)] batches, every batch before the last holds exactly [B]
    files, the last holds [N mod B] files (or [B] when [B] divides [N]), and
    the batches put end to end are the input: every file once, in order. *)
Theorem yield_file_batches_partition {A : Type} (B : nat) (files : list A) :
  0 < B ->
  length (yield_file_batches B files) = ceil_div (length files) B /\
  concat (yield_file_batches B files) = files /\
  (forall i b, yield_file_batches B files !! i = Some b ->
               S i < length (yield_file_batches B files) -> length b = B) /\
  (forall b, last (yield_file_batches B files) = Some b ->
             length b = last_batch_size (length files) B).
Proof.
  intros HB. split; [|split; [|split]].
  - apply yield_file_batches_length, HB.
  - apply yield_file_batches_concat, HB.
  - intros i b Hb Hi.
    pose proof (yield_file_batches_sizes B HB files i b Hb) as Hs.
    destruct (Nat.eqb_spec (S i) (length (yield_file_batches B files))); [lia|].
    exact Hs.
  - intros b Hb. rewrite last_lookup in Hb.
    pose proof (yield_file_batches_sizes B HB files _ b Hb) as Hs.
    assert (Hlen : 0 < length (yield_file_batches B files)).
    { destruct (yield_file_batches B files); [discriminate | simpl; lia]. }
    destruct (Nat.eqb_spec (S (pred (length (yield_file_batches B files))))
                           (length (yield_file_batches B files))); [|lia].
    exact Hs.
Qed.

Lemma yield_file_batches_partition_witness :
  0 < 3 /\
  yield_file_batches 3 [1; 2; 3; 4; 5; 6; 7] = [[1; 2; 3]; [4; 5; 6]; [7]] /\
  length (yield_file_batches 3 [1; 2; 3; 4; 5; 6; 7]) = ceil_div 7 3 /\
  concat (yield_file_batches 3 [1; 2; 3; 4; 5; 6; 7]) = [1; 2; 3; 4; 5; 6; 7].
Proof.
  assert (Hpos : 0 < 3) by lia.
  split; [exact Hpos|]. split; [reflexivity|].
  destruct (yield_file_batches_partition 3 [1; 2; 3; 4; 5; 6; 7] Hpos)
    as (Hlen & Hcat & _).
  split; [exact Hlen | exact Hcat].
Defined.

(** ** The result store *)

Section StoreFacts.
Implicit Types (disk : gmap string DataFrame) (file_path : string).

(** One merge puts the rows of the artifact after the rows of the store. *)
Lemma save_results_store disk file_path :
  store_rows (fst (save_results file_path disk)) =
  store_rows disk ++ artifact_rows disk file_path.
Proof.
  unfold save_results, store_rows, artifact_rows.
  destruct (disk !! file_path) as [artifact|] eqn:Ha; simpl.
  - destruct (disk !! RESULTS_DF) as [store|] eqn:Hs; simpl;
      rewrite lookup_insert_eq; reflexivity.
  - destruct (disk !! RESULTS_DF); rewrite app_nil_r; reflexivity.
Qed.

(** A merge writes the store and nothing else. *)
Lemma save_results_other disk file_path (p : string) :
  p <> RESULTS_DF ->
  fst (save_results file_path disk) !! p = disk !! p.
Proof.
  intros Hp. unfold save_results.
  destruct (disk !! file_path); [|reflexivity].
  destruct (disk !! RESULTS_DF); simpl; rewrite lookup_insert_ne; auto.
Qed.

Lemma save_all_cons disk file_path file_paths :
  save_all (file_path :: file_paths) disk =
  save_all file_paths (fst (save_results file_path disk)).
Proof. reflexivity. Qed.

Lemma save_all_store disk file_paths :
  Forall (fun p => p <> RESULTS_DF) file_paths ->
  store_rows (save_all file_paths disk) =
  store_rows disk ++ concat (List.map (artifact_rows disk) file_paths).
Proof.
  intros Hne. revert disk.
  induction Hne as [|p ps Hp Hps IH]; intros disk.
  - simpl. rewrite app_nil_r. reflexivity.
  - rewrite save_all_cons, IH, save_results_store. simpl.
    rewrite <- app_assoc. do 3 f_equal.
    apply map_ext_in. intros q Hq. unfold artifact_rows.
    rewrite save_results_other; [reflexivity|].
    rewrite Forall_forall in Hps. apply Hps. apply list_elem_of_In, Hq.
Qed.

Lemma save_all_row_count disk file_paths :
  Forall (fun p => p <> RESULTS_DF) file_paths ->
  length (store_rows (save_all file_paths disk)) =
  length (store_rows disk)
  + sum_list_with (fun p => length (artifact_rows disk p)) file_paths.
Proof.
  intros Hne. rewrite save_all_store by exact Hne.
  rewrite length_app. f_equal. clear Hne.
  induction file_paths as [|p ps IH]; simpl; [reflexivity|].
  rewrite length_app, IH. reflexivity.
Qed.

Lemma run_invariant_start disk0 : run_invariant (mkState (reset disk0) []).
Proof.
  split; [|split]; simpl.
  - intros df. unfold reset. rewrite lookup_delete_eq. discriminate.
  - constructor.
  - intros p Hp. inversion Hp.
Qed.

(** A worker writes at most one table, at a path that was free, and only a
    table with a row. *)
Lemma process_files_disk env fuel tmp_dir files disk done :
  process_files env fuel tmp_dir files disk = Some done ->
  (exists p df, returned done = (Some p, None) /\ disk !! p = None /\
                df <> [] /\ disk_after done = <[p := df]> disk) \/
  (fst (returned done) = None /\ disk_after done = disk).
Proof.
  unfold process_files, process_files_try.
  destruct (batch_table env files) as [table log].
  destruct table as [|row table]; simpl.
  - intros [= <-]. right. split; reflexivity.
  - destruct (generate_temp_file_path env fuel tmp_dir disk 0)
      as [file_path|] eqn:Hgen; [|discriminate].
    assert (Hfree : disk !! file_path = None).
    { clear -Hgen. revert Hgen. generalize 0 as draw.
      induction fuel as [|fuel IH]; intros draw; simpl; [discriminate|].
      destruct (disk !! joinpath tmp_dir (uuid4 env draw)) eqn:Hl.
      - apply IH.
      - intros [= <-]. exact Hl. }
    unfold write_results.
    destruct (to_feather_error env file_path (row :: table)).
    + intros [= <-]. right. split; reflexivity.
    + intros [= <-]. left. exists file_path, (row :: table).
      repeat split; auto.
Qed.

Lemma pending_paths_app pending pending' :
  pending_paths (pending ++ pending') =
  pending_paths pending ++ pending_paths pending'.
Proof. unfold pending_paths. apply omap_app. Qed.

Lemma run_invariant_step tmp_dir st st' :
  run_invariant st -> step tmp_dir st st' -> run_invariant st'.
Proof.
  intros (Hstore & Hnodup & Hpend) Hstep.
  destruct Hstep as [env fuel files st done Hrun | st before ret after Heq].
  - destruct (process_files_disk _ _ _ _ _ _ Hrun)
      as [(p & df & Hret & Hfree & Hdf & Hdisk) | (Hret & Hdisk)].
    + assert (Hnew : p ∉ pending_paths (st_pending st)).
      { intros Hin. destruct (Hpend p Hin) as (df' & Hl & _). congruence. }
      split; [|split]; simpl; rewrite ?Hdisk, ?Hret, ?pending_paths_app; simpl.
      * intros df'. destruct (decide (p = RESULTS_DF)) as [->|Hne].
        -- rewrite lookup_insert_eq. intros [= <-]. exact Hdf.
        -- rewrite lookup_insert_ne by exact Hne. apply Hstore.
      * apply NoDup_app. split; [exact Hnodup|]. split.
        -- intros q Hq Hq'. apply list_elem_of_singleton in Hq'. subst q.
           contradiction.
        -- apply NoDup_singleton.
      * intros q Hq. apply elem_of_app in Hq as [Hq|Hq].
        -- destruct (Hpend q Hq) as (df' & Hl & Hne). exists df'.
           split; [|exact Hne].
           rewrite lookup_insert_ne; [exact Hl|]. intros ->. contradiction.
        -- apply list_elem_of_singleton in Hq. subst q. exists df.
           rewrite lookup_insert_eq. auto.
    + split; [|split]; simpl; rewrite ?Hdisk, ?pending_paths_app.
      * exact Hstore.
      * destruct (returned done) as [r1 r2]. simpl in Hret. subst r1.
        simpl. rewrite app_nil_r. exact Hnodup.
      * destruct (returned done) as [r1 r2]. simpl in Hret. subst r1.
        simpl. rewrite app_nil_r. exact Hpend.
  - rewrite Heq in Hnodup, Hpend. rewrite pending_paths_app in Hnodup, Hpend.
    destruct ret as [[p|] exc]; simpl in Hnodup, Hpend.
    + apply NoDup_app in Hnodup as (Hnb & Hdisj & Hna).
      apply NoDup_cons in Hna as (Hpa & Hna).
      assert (Hpb : p ∉ pending_paths before).
      { intros Hin. apply (Hdisj p Hin). left. }
      destruct (Hpend p) as (art & Hart & Hne).
      { apply elem_of_app. right. left. }
      split; [|split]; simpl; rewrite ?pending_paths_app; unfold collect; simpl.
      * intros df Hl.
        destruct (decide (p = RESULTS_DF)) as [->|Hp].
        { rewrite lookup_delete_eq in Hl. discriminate. }
        rewrite lookup_delete_ne in Hl by exact Hp.
        assert (Hrows : store_rows (fst (save_results p (st_disk st))) = df).
        { unfold store_rows. rewrite Hl. reflexivity. }
        rewrite save_results_store in Hrows. unfold artifact_rows in Hrows.
        rewrite Hart in Hrows. subst df.
        destruct (store_rows (st_disk st)); destruct art; simpl; congruence.
      * apply NoDup_app. split; [exact Hnb|]. split; [|exact Hna].
        intros q Hq Hq'. apply (Hdisj q Hq). right. exact Hq'.
      * intros q Hq.
        assert (Hqp : q <> p).
        { intros ->. apply elem_of_app in Hq as [Hq|Hq]; contradiction. }
        destruct (Hpend q) as (df & Hl & Hdf).
        { apply elem_of_app in Hq as [Hq|Hq]; apply elem_of_app;
            [left | right; right]; exact Hq. }
        rewrite lookup_delete_ne by congruence.
        destruct (decide (q = RESULTS_DF)) as [->|Hq'].
        -- exists (store_rows (fst (save_results p (st_disk st)))).
           split.
           ++ unfold save_results, store_rows. rewrite Hart, Hl. simpl.
              rewrite lookup_insert_eq. reflexivity.
           ++ rewrite save_results_store. unfold store_rows. rewrite Hl.
              destruct df; simpl; congruence.
        -- exists df. rewrite save_results_other by exact Hq'. auto.
    + split; [|split]; simpl; rewrite ?pending_paths_app; unfold collect; simpl.
      * exact Hstore.
      * exact Hnodup.
      * exact Hpend.
Qed.
End StoreFacts.

Lemma reachable_run_invariant tmp_dir disk0 st :
  reachable tmp_dir disk0 st -> run_invariant st.
Proof.
  induction 1 as [|st st' _ IH Hstep].
  - apply run_invariant_start.
  - exact (run_invariant_step _ _ _ IH Hstep).
Qed.

Lemma save_all_prefix (disk : gmap string DataFrame) file_paths :
  store_rows disk `prefix_of` store_rows (save_all file_paths disk).
Proof.
  revert disk. induction file_paths as [|p ps IH]; intros disk.
  - reflexivity.
  - rewrite save_all_cons. etransitivity; [|apply IH].
    rewrite save_results_store. apply prefix_app_r. reflexivity.
Qed.

(** C2, as stated, fails on a store that already has rows: the count after
    the merge is not the sum of the artifacts' row counts. *)
Lemma save_results_row_count_counterexample :
  length (store_rows (save_all ["/tmp/w/u1"] disk_with_store)) <>
  sum_list_with (fun p => length (artifact_rows disk_with_store p)) ["/tmp/w/u1"].
Proof. vm_compute. discriminate. Qed.

(** C2 (amended). For every state of the store and every sequence of
    artifacts, at paths other than the store's, merged one at a time by
    [save_results], the row count of the store afterwards is its row count
    before (zero when the store is absent, as after the reset of a run) plus
    the sum of the artifacts' row counts, in whatever order the artifacts are
    merged; the rows the store had stay, unaltered, at the front. *)
Theorem save_results_row_count (disk : gmap string DataFrame)
        (file_paths : list string) :
  Forall (fun p => p <> RESULTS_DF) file_paths ->
  length (store_rows (save_all file_paths disk)) =
    length (store_rows disk)
    + sum_list_with (fun p => length (artifact_rows disk p)) file_paths /\
  (forall file_paths', file_paths ≡ₚ file_paths' ->
     length (store_rows (save_all file_paths' disk)) =
     length (store_rows (save_all file_paths disk))) /\
  (forall file_path,
     store_rows disk `prefix_of` store_rows (fst (save_results file_path disk))) /\
  store_rows disk `prefix_of` store_rows (save_all file_paths disk).
Proof.
  intros Hne. split; [|split; [|split]].
  - apply save_all_row_count, Hne.
  - intros file_paths' Hperm.
    rewrite !save_all_row_count; [| exact Hne | rewrite <- Hperm; exact Hne].
    rewrite Hperm. reflexivity.
  - intros file_path. rewrite save_results_store. apply prefix_app_r. reflexivity.
  - apply save_all_prefix.
Qed.

Lemma save_results_row_count_witness :
  Forall (fun p => p <> RESULTS_DF) ["/tmp/w/u1"] /\
  length (store_rows (save_all ["/tmp/w/u1"] disk_with_store)) =
    length (store_rows disk_with_store)
    + sum_list_with (fun p => length (artifact_rows disk_with_store p))
                    ["/tmp/w/u1"].
Proof.
  assert (H : Forall (fun p => p <> RESULTS_DF) ["/tmp/w/u1"]).
  { repeat constructor. discriminate. }
  split; [exact H|].
  exact (proj1 (save_results_row_count disk_with_store ["/tmp/w/u1"] H)).
Defined.

Lemma demo_process_files :
  process_files demo_env 1 "/tmp/w" [demo_file] (reset ∅) = Some demo_done.
Proof. vm_compute. reflexivity. Qed.

Lemma demo_reachable : reachable "/tmp/w" ∅ demo_final.
Proof.
  eapply reachable_step.
  - eapply reachable_step; [apply reachable_start|].
    exact (step_worker "/tmp/w" demo_env 1 [demo_file] (mkState (reset ∅) [])
                       demo_done demo_process_files).
  - apply (step_collect "/tmp/w" (mkState _ _) [] (returned demo_done) []).
    reflexivity.
Qed.

(** C10. In every state a run can reach after the reset, a store that exists
    holds at least one row: workers write only tables with a row, and a merge
    keeps the rows of the store and of the artifact.  The same holds at the
    point between the merge of a returned artifact and its removal. *)
Theorem store_never_empty tmp_dir (disk0 : gmap string DataFrame) (st : State) :
  reachable tmp_dir disk0 st ->
  (forall df, st_disk st !! RESULTS_DF = Some df -> df <> []) /\
  (forall file_path exc df,
     (Some file_path, exc) ∈ st_pending st ->
     fst (save_results file_path (st_disk st)) !! RESULTS_DF = Some df ->
     df <> []).
Proof.
  intros Hreach.
  destruct (reachable_run_invariant _ _ _ Hreach) as (Hstore & _ & Hpend).
  split; [exact Hstore|].
  intros file_path exc df Hin Hl.
  destruct (Hpend file_path) as (artifact & Hart & Hne).
  { apply list_elem_of_omap. exists (Some file_path, exc). auto. }
  assert (Hrows : store_rows (fst (save_results file_path (st_disk st))) = df).
  { unfold store_rows. rewrite Hl. reflexivity. }
  rewrite save_results_store in Hrows. unfold artifact_rows in Hrows.
  rewrite Hart in Hrows. subst df.
  destruct (store_rows (st_disk st)); destruct artifact; simpl; congruence.
Qed.

Lemma store_never_empty_witness :
  reachable "/tmp/w" ∅ demo_final /\
  st_disk demo_final !! RESULTS_DF = Some [demo_row] /\
  [demo_row] <> [].
Proof.
  assert (Hl : st_disk demo_final !! RESULTS_DF = Some [demo_row]).
  { vm_compute. reflexivity. }
  split; [exact demo_reachable|]. split; [exact Hl|].
  exact (proj1 (store_never_empty "/tmp/w" ∅ demo_final demo_reachable)
               [demo_row] Hl).
Defined.

(** ** The batch processor *)

Section WorkerFacts.
Variable env : Env.
Implicit Types (disk : gmap string DataFrame) (files : list Path).

Lemma format_exc_nonempty e : String.eqb (format_exc e) "" = false.
Proof. reflexivity. Qed.

(** One round of the loop puts the rows of the file in front of the
    container and adds the error line of the file to the log. *)
Lemma absorb_file acc log file :
  absorb (acc, log)
         (match process_file env file with
          | Return r => (Some r, None)
          | Raised e => (None, Some (format_exc e))
          end)
  = (rows_of env file ++ acc, log ++ error_line env file).
Proof.
  unfold rows_of, error_line.
  destruct (process_file env file) as [r|e]; simpl.
  - destruct r; simpl; rewrite ?app_nil_r; reflexivity.
  - reflexivity.
Qed.

Lemma batch_table_from acc log files :
  fold_left absorb (yield_processing_results env files) (acc, log) =
  (concat (List.map (rows_of env) (rev files)) ++ acc,
   log ++ concat (List.map (error_line env) files)).
Proof.
  unfold yield_processing_results.
  revert acc log. induction files as [|file files IH]; intros acc log.
  - simpl. rewrite app_nil_r. reflexivity.
  - cbn [List.map fold_left rev]. rewrite absorb_file, IH.
    rewrite map_app, concat_app. simpl.
    rewrite !app_nil_r, <- !app_assoc. reflexivity.
Qed.

Lemma batch_table_eq files :
  batch_table env files =
  (concat (List.map (rows_of env) (rev files)),
   concat (List.map (error_line env) files)).
Proof.
  unfold batch_table. rewrite batch_table_from, app_nil_r. reflexivity.
Qed.

(** Unreadable files contribute nothing. *)
Lemma rows_of_unreadable file : readable env file = false -> rows_of env file = [].
Proof.
  unfold readable, rows_of, process_file.
  destruct (read_bytes env file); [discriminate | reflexivity].
Qed.

Lemma concat_rows_readable files :
  concat (List.map (rows_of env) files) =
  concat (List.map (rows_of env) (List.filter (readable env) files)).
Proof.
  induction files as [|file files IH]; simpl; [reflexivity|].
  destruct (readable env file) eqn:Hr; simpl.
  - rewrite IH. reflexivity.
  - rewrite rows_of_unreadable by exact Hr. exact IH.
Qed.

Lemma concat_rows_rev (tables : list DataFrame) :
  concat (rev tables) ≡ₚ concat tables.
Proof.
  induction tables as [|t ts IH]; simpl; [reflexivity|].
  rewrite concat_app. simpl. rewrite app_nil_r, IH.
  apply Permutation_app_comm.
Qed.

(** The loop of [generate_temp_file_path] ends as soon as a draw names a
    free path. *)
Lemma generate_temp_file_path_finds tmp_dir disk fuel draw k :
  k < fuel ->
  disk !! joinpath tmp_dir (uuid4 env (draw + k)) = None ->
  exists file_path,
    generate_temp_file_path env fuel tmp_dir disk draw = Some file_path /\
    disk !! file_path = None.
Proof.
  revert draw k. induction fuel as [|fuel IH]; intros draw k Hk Hfree; [lia|].
  simpl. destruct (disk !! joinpath tmp_dir (uuid4 env draw)) eqn:Hl.
  - destruct k as [|k].
    + rewrite Nat.add_0_r in Hfree. congruence.
    + apply (IH (S draw) k); [lia|].
      replace (S draw + k) with (draw + S k) by lia. exact Hfree.
  - eauto.
Qed.

End WorkerFacts.

(** C3. [process_files] returns a pair and never raises: provided some draw
    of the identifier source names a free path within the draws allowed (the
    loop that picks the artifact path has no other way to end), the call
    completes, and the pair is the artifact path alone when the batch table has
    rows and was written, nothing at all when the batch table is empty, and
    the error text alone when writing the table failed. *)
Theorem process_files_never_raises (env : Env) (tmp_dir : string)
        (files : list Path) (disk : gmap string DataFrame) (fuel k : nat) :
  k < fuel ->
  disk !! joinpath tmp_dir (uuid4 env k) = None ->
  exists done,
    process_files env fuel tmp_dir files disk = Some done /\
    match returned done with
    | (Some file_path, None) =>
        fst (batch_table env files) <> [] /\
        disk !! file_path = None /\
        to_feather_error env file_path (fst (batch_table env files)) = None /\
        disk_after done = <[file_path := fst (batch_table env files)]> disk
    | (None, None) =>
        fst (batch_table env files) = [] /\ disk_after done = disk
    | (None, Some detail) =>
        fst (batch_table env files) <> [] /\ disk_after done = disk /\
        exists file_path e,
          to_feather_error env file_path (fst (batch_table env files)) = Some e /\
          detail = format_exc e
    | (Some _, Some _) => False
    end.
Proof.
  intros Hk Hfree.
  destruct (generate_temp_file_path_finds env tmp_dir disk fuel 0 k Hk Hfree)
    as (file_path & Hgen & Hnew).
  unfold process_files, process_files_try.
  destruct (batch_table env files) as [table log]. simpl.
  destruct table as [|row table]; simpl.
  - eexists. split; [reflexivity|]. simpl. auto.
  - rewrite Hgen. unfold write_results.
    destruct (to_feather_error env file_path (row :: table)) as [e|] eqn:Hw.
    + eexists. split; [reflexivity|]. simpl.
      split; [discriminate|]. split; [reflexivity|]. eauto.
    + eexists. split; [reflexivity|]. simpl.
      split; [discriminate|]. auto.
Qed.

Lemma process_files_never_raises_witness :
  0 < 1 /\
  reset ∅ !! joinpath "/tmp/w" (uuid4 demo_env 0) = None /\
  exists done,
    process_files demo_env 1 "/tmp/w" [demo_file] (reset ∅) = Some done /\
    match returned done with
    | (Some file_path, None) =>
        fst (batch_table demo_env [demo_file]) <> [] /\
        reset ∅ !! file_path = None /\
        to_feather_error demo_env file_path
                         (fst (batch_table demo_env [demo_file])) = None /\
        disk_after done =
          <[file_path := fst (batch_table demo_env [demo_file])]> (reset ∅)
    | (None, None) =>
        fst (batch_table demo_env [demo_file]) = [] /\ disk_after done = reset ∅
    | (None, Some detail) =>
        fst (batch_table demo_env [demo_file]) <> [] /\
        disk_after done = reset ∅ /\
        exists file_path e,
          to_feather_error demo_env file_path
                           (fst (batch_table demo_env [demo_file])) = Some e /\
          detail = format_exc e
    | (Some _, Some _) => False
    end.
Proof.
  assert (Hfree : reset ∅ !! joinpath "/tmp/w" (uuid4 demo_env 0)
                  = (None : option DataFrame)).
  { vm_compute. reflexivity. }
  split; [lia|]. split; [exact Hfree|].
  apply (process_files_never_raises demo_env "/tmp/w" [demo_file] (reset ∅) 1 0);
    [lia | exact Hfree].
Defined.

(** C4. A file whose reading or extraction raises is skipped and the rest of
    the batch is processed: the batch table holds exactly the matches of the
    files that could be read (the later file first), one error line is logged
    per failed file, and the artifact the call returns holds that table. *)
Theorem process_files_isolates_failures (env : Env) (fuel : nat)
        (tmp_dir : string) (files : list Path)
        (disk : gmap string DataFrame) (done : Completed) :
  process_files env fuel tmp_dir files disk = Some done ->
  fst (batch_table env files) = concat (List.map (rows_of env) (rev files)) /\
  fst (batch_table env files)
    ≡ₚ concat (List.map (rows_of env) (List.filter (readable env) files)) /\
  logged done = concat (List.map (error_line env) files) /\
  (forall file_path, fst (returned done) = Some file_path ->
     disk_after done !! file_path = Some (fst (batch_table env files))) /\
  (fst (batch_table env files) <> [] ->
   (forall file_path,
      to_feather_error env file_path (fst (batch_table env files)) = None) ->
   exists file_path, returned done = (Some file_path, None)).
Proof.
  intros Hrun. rewrite batch_table_eq. simpl.
  split; [reflexivity|]. split.
  { rewrite map_rev, concat_rows_rev, <- concat_rows_readable. reflexivity. }
  revert Hrun. unfold process_files, process_files_try.
  rewrite batch_table_eq.
  destruct (concat (List.map (rows_of env) (rev files))) as [|row table]; simpl.
  - intros [= <-]. simpl. split; [reflexivity|]. split; [discriminate|].
    intros Hne. contradiction.
  - destruct (generate_temp_file_path env fuel tmp_dir disk 0) as [p|];
      [|discriminate].
    unfold write_results.
    destruct (to_feather_error env p (row :: table)) as [e|] eqn:Hw.
    + intros [= <-]. simpl. split; [reflexivity|]. split; [discriminate|].
      intros _ Hok. rewrite Hok in Hw. discriminate.
    + intros [= <-]. simpl. split; [reflexivity|]. split.
      * intros file_path [= <-]. apply lookup_insert_eq.
      * intros _ _. eauto.
Qed.

Lemma process_files_isolates_failures_witness :
  process_files three_files_env 1 "/tmp/w" [locked_file; x_file; y_file] ∅
    = Some three_files_done /\
  fst (batch_table three_files_env [locked_file; x_file; y_file])
    = three_files_table /\
  disk_after three_files_done !! "/tmp/w/u1"
    = Some (fst (batch_table three_files_env [locked_file; x_file; y_file])).
Proof.
  assert (Hrun : process_files three_files_env 1 "/tmp/w"
                               [locked_file; x_file; y_file] ∅
                 = Some three_files_done).
  { vm_compute. reflexivity. }
  split; [exact Hrun|]. split; [vm_compute; reflexivity|].
  destruct (process_files_isolates_failures
              three_files_env 1 "/tmp/w" [locked_file; x_file; y_file] ∅
              three_files_done Hrun) as (_ & _ & _ & Hdisk & _).
  apply Hdisk. reflexivity.
Defined.

(** ** The extractor *)

Lemma append_cons (a : ascii) (s1 s2 : string) :
  (String a s1 ++ s2 = String a (s1 ++ s2))%string.
Proof. reflexivity. Qed.

Lemma append_assoc (s1 s2 s3 : string) :
  ((s1 ++ s2) ++ s3 = s1 ++ (s2 ++ s3))%string.
Proof.
  induction s1 as [|a s1 IH]; [reflexivity|].
  rewrite !append_cons, IH. reflexivity.
Qed.

Lemma upper_app (s1 s2 : string) :
  upper (s1 ++ s2) = (upper s1 ++ upper s2)%string.
Proof.
  induction s1 as [|a s1 IH]; [reflexivity|].
  rewrite append_cons. cbn [upper]. rewrite IH. reflexivity.
Qed.

Lemma repr_body_app (quote : ascii) (bs1 bs2 : list Byte.byte) :
  repr_body quote (bs1 ++ bs2) = (repr_body quote bs1 ++ repr_body quote bs2)%string.
Proof.
  induction bs1 as [|c bs1 IH]; [reflexivity|].
  cbn [app repr_body]. rewrite IH. symmetry. apply append_assoc.
Qed.

Lemma all_chars_app (P : ascii -> bool) (s1 s2 : string) :
  all_chars P (s1 ++ s2) = all_chars P s1 && all_chars P s2.
Proof.
  induction s1 as [|a s1 IH]; [reflexivity|].
  rewrite append_cons. cbn [all_chars]. rewrite IH. apply andb_assoc.
Qed.

Lemma repr_quote_cases (bs : list Byte.byte) :
  repr_quote bs = squote \/ repr_quote bs = dquote.
Proof.
  unfold repr_quote.
  destruct (has_byte squote bs && negb (has_byte dquote bs)); auto.
Qed.

(** Whatever the byte, its escaped and uppercased form is printable. *)
Lemma repr_byte_printable (quote : ascii) (c : Byte.byte) :
  quote = squote \/ quote = dquote ->
  all_chars printable (upper (repr_byte quote c)) = true.
Proof.
  intros [-> | ->]; destruct c; vm_compute; reflexivity.
Qed.

(** A printable byte other than the quotes and the backslash is written as
    itself. *)
Lemma repr_byte_plain (quote : ascii) (c : Byte.byte) :
  quote = squote \/ quote = dquote ->
  printable (ascii_of_byte c) = true ->
  ascii_of_byte c <> squote -> ascii_of_byte c <> dquote ->
  ascii_of_byte c <> backslash ->
  repr_byte quote c = String (ascii_of_byte c) "".
Proof.
  intros [-> | ->]; destruct c; intros Hp H1 H2 H3;
    first [ discriminate Hp
          | exfalso; apply H1; reflexivity
          | exfalso; apply H2; reflexivity
          | exfalso; apply H3; reflexivity
          | vm_compute; reflexivity ].
Qed.

(** A byte above 127 is written as its placeholder. *)
Lemma repr_byte_high (quote : ascii) (c : Byte.byte) :
  quote = squote \/ quote = dquote ->
  (128 <=? nat_of_ascii (ascii_of_byte c)) = true ->
  upper (repr_byte quote c) = placeholder c.
Proof.
  intros [-> | ->]; destruct c; intros H;
    first [ discriminate H | vm_compute; reflexivity ].
Qed.

Lemma repr_body_printable (quote : ascii) (bs : list Byte.byte) :
  quote = squote \/ quote = dquote ->
  all_chars printable (upper (repr_body quote bs)) = true.
Proof.
  intros Hq. induction bs as [|c bs IH]; simpl; [reflexivity|].
  rewrite upper_app, all_chars_app, IH, repr_byte_printable by exact Hq.
  reflexivity.
Qed.

Lemma bytes_str_printable (bs : list Byte.byte) :
  all_chars printable (upper (bytes_str bs)) = true.
Proof.
  unfold bytes_str.
  pose proof (repr_quote_cases bs) as Hq.
  cbn [upper all_chars]. rewrite upper_app, all_chars_app.
  rewrite repr_body_printable by exact Hq.
  destruct Hq as [-> | ->]; reflexivity.
Qed.

(** The rows of [process_file] are the matches, in order. *)
Lemma fold_rows (path : string) (matches : list string) (acc : DataFrame) :
  fold_left (fun result_container m => result_container ++ [mkRow path m])
            matches acc
  = acc ++ List.map (mkRow path) matches.
Proof.
  revert acc. induction matches as [|m ms IH]; intros acc; simpl.
  - rewrite app_nil_r. reflexivity.
  - rewrite IH, <- app_assoc. reflexivity.
Qed.

Lemma process_file_rows (env : Env) (file : Path) (bytes : list Byte.byte) :
  read_bytes env file = Return bytes ->
  process_file env file =
    Return (List.map (mkRow (Path_str file))
                     (finditer SQL_PATTERN (upper (bytes_str bytes)))).
Proof.
  intros Hread. unfold process_file. rewrite Hread, fold_rows. reflexivity.
Qed.

(** When the pattern matches at no position, the scan yields nothing. *)
Lemma finditer_no_match (p : list re_item) (s : string) :
  (forall pre post, s = (pre ++ post)%string -> match_here p post = None) ->
  finditer p s = [].
Proof.
  unfold finditer. induction s as [|a s IH]; intros Hnone.
  - simpl. rewrite (Hnone "" "") by reflexivity. reflexivity.
  - simpl. rewrite (Hnone "" (String a s)) by reflexivity.
    apply IH. intros pre post ->. apply (Hnone (String a pre) post). reflexivity.
Qed.

(** The text of a buffer around one of its bytes. *)
Lemma bytes_str_split (bytes bs1 bs2 : list Byte.byte) (c : Byte.byte) :
  bytes = bs1 ++ c :: bs2 ->
  upper (bytes_str bytes) =
    String "B" (String (repr_quote bytes)
      (upper (repr_body (repr_quote bytes) bs1)
       ++ upper (repr_byte (repr_quote bytes) c)
       ++ upper (repr_body (repr_quote bytes) bs2)
       ++ String (repr_quote bytes) ""))%string.
Proof.
  intros Hsplit. unfold bytes_str. cbn [upper].
  assert (Hup : upper_ascii (repr_quote bytes) = repr_quote bytes).
  { destruct (repr_quote_cases bytes) as [-> | ->]; reflexivity. }
  rewrite Hup. do 2 f_equal.
  rewrite Hsplit at 2. rewrite repr_body_app. cbn [repr_body].
  rewrite !upper_app. cbn [upper]. rewrite Hup.
  rewrite <- !append_assoc. reflexivity.
Qed.

(** C6. On the bytes [select a from t; SELECT b FROM u WHERE x;] the
    extractor yields exactly two matches, the uppercased statements
    [SELECT A FROM T;] and [SELECT B FROM U WHERE X;], each ending at its
    semicolon, in that order. *)
Theorem process_file_two_statements (file : Path) :
  upper (bytes_str two_statements)
    = "B'SELECT A FROM T; SELECT B FROM U WHERE X;'" /\
  finditer SQL_PATTERN (upper (bytes_str two_statements))
    = ["SELECT A FROM T;"; "SELECT B FROM U WHERE X;"] /\
  process_file (reading two_statements) file
    = Return [mkRow (Path_str file) "SELECT A FROM T;";
              mkRow (Path_str file) "SELECT B FROM U WHERE X;"].
Proof.
  assert (Hm : finditer SQL_PATTERN (upper (bytes_str two_statements))
               = ["SELECT A FROM T;"; "SELECT B FROM U WHERE X;"]).
  { vm_compute. reflexivity. }
  split; [vm_compute; reflexivity|]. split; [exact Hm|].
  rewrite (process_file_rows (reading two_statements) file two_statements eq_refl).
  rewrite Hm. reflexivity.
Qed.

(** ** The file enumerator *)

Section EnumeratorFacts.
Variable is_dir : Path -> bool.

Lemma yield_files_filter (target_exts : option (list string)) (glob : list Path) :
  yield_files is_dir target_exts glob =
  List.filter (fun file => negb (skip_file is_dir target_exts file)) glob.
Proof.
  induction glob as [|file glob IH]; simpl; [reflexivity|].
  destruct (skip_file is_dir target_exts file); simpl; rewrite IH; reflexivity.
Qed.

Lemma skip_file_false (exts : list string) (file : Path) :
  skip_file is_dir (Some exts) file = false <->
  is_dir file = false /\ (".git" ∉ parts file) /\ Path_suffix file ∈ exts.
Proof.
  unfold skip_file, REASONS_TO_SKIP_FILE, any. simpl.
  rewrite !orb_false_iff, negb_false_iff, !bool_decide_eq_false, bool_decide_eq_true.
  tauto.
Qed.

Lemma yield_files_elem (exts : list string) (glob : list Path) (file : Path) :
  file ∈ yield_files is_dir (Some exts) glob <->
  file ∈ glob /\ is_dir file = false /\ (".git" ∉ parts file) /\
  Path_suffix file ∈ exts.
Proof.
  rewrite yield_files_filter, list_elem_of_In, filter_In, <- list_elem_of_In.
  rewrite negb_true_iff, skip_file_false. tauto.
Qed.

Lemma Path_name_entry (root : list string) (name : string) :
  name <> "/" -> Path_name (entry root name) = name.
Proof.
  intros Hname. unfold Path_name, entry. simpl.
  rewrite bool_decide_eq_false_2.
  - apply last_last.
  - destruct root as [|r [|r' root]]; simpl; congruence.
Qed.

Lemma Path_suffix_entry (root : list string) (name : string) :
  name <> "/" ->
  Path_suffix (entry root name) = Path_suffix (mkPath [name]).
Proof.
  intros Hname. change (mkPath [name]) with (entry [] name). unfold Path_suffix.
  rewrite (Path_name_entry root name Hname).
  rewrite (Path_name_entry [] name Hname). reflexivity.
Qed.
End EnumeratorFacts.

(** C9. With the extension filter [[.sql]] a file is yielded exactly when it
    comes from the walk, is not a directory, does not lie under [.git] and
    has the suffix [.sql], compared as text; so of the entries [a.sql],
    [a.txt] and [a.SQL] of a directory, in whatever order the walk gives
    them, only [a.sql] is yielded. *)
Theorem yield_files_extension_filter (is_dir : Path -> bool)
        (root : list string) (glob : list Path) :
  ".git" ∉ root ->
  is_dir (entry root "a.sql") = false ->
  glob ≡ₚ three_entries root ->
  yield_files is_dir (Some [".sql"]) glob = [entry root "a.sql"] /\
  (forall walk file,
     file ∈ yield_files is_dir (Some [".sql"]) walk <->
     file ∈ walk /\ is_dir file = false /\ (".git" ∉ parts file) /\
     Path_suffix file = ".sql").
Proof.
  intros Hgit Hfile Hglob. split.
  - apply Permutation_singleton_r.
    rewrite yield_files_filter.
    assert (Hperm : List.filter
                      (fun file => negb (skip_file is_dir (Some [".sql"]) file)) glob
                    ≡ₚ List.filter
                      (fun file => negb (skip_file is_dir (Some [".sql"]) file))
                      (three_entries root)).
    { clear -Hglob. induction Hglob; simpl.
      - reflexivity.
      - destruct (negb _); [constructor|]; assumption.
      - destruct (negb _), (negb _); try reflexivity; constructor.
      - etransitivity; eassumption. }
    rewrite Hperm. unfold three_entries. simpl.
    assert (Hkeep : skip_file is_dir (Some [".sql"]) (entry root "a.sql") = false).
    { apply skip_file_false. split; [exact Hfile|]. split.
      - unfold entry. simpl. intros Hin. apply elem_of_app in Hin as [Hin|Hin].
        + contradiction.
        + apply list_elem_of_singleton in Hin. discriminate.
      - rewrite Path_suffix_entry by discriminate. vm_compute. left. }
    assert (Hskip : forall name,
               Path_suffix (mkPath [name]) ∉ [".sql"] -> name <> "/" ->
               skip_file is_dir (Some [".sql"]) (entry root name) = true).
    { intros name Hsuf Hname.
      destruct (skip_file is_dir (Some [".sql"]) (entry root name)) eqn:Hs;
        [reflexivity|].
      apply skip_file_false in Hs as (_ & _ & Hin).
      rewrite Path_suffix_entry in Hin by exact Hname. contradiction. }
    rewrite Hkeep, !Hskip; simpl; try discriminate; try reflexivity.
    + vm_compute. intros Hin. apply list_elem_of_singleton in Hin. discriminate.
    + vm_compute. intros Hin. apply list_elem_of_singleton in Hin. discriminate.
  - intros walk file. rewrite yield_files_elem.
    rewrite list_elem_of_singleton. tauto.
Qed.

Lemma yield_files_extension_filter_witness :
  (".git" ∉ ["repo"; "db"]) /\
  three_entries ["repo"; "db"] ≡ₚ three_entries ["repo"; "db"] /\
  yield_files (fun _ => false) (Some [".sql"]) (three_entries ["repo"; "db"])
    = [entry ["repo"; "db"] "a.sql"].
Proof.
  assert (Hgit : ".git" ∉ ["repo"; "db"]).
  { intros Hin. repeat (apply elem_of_cons in Hin as [Hin|Hin]; [discriminate|]).
    inversion Hin. }
  split; [exact Hgit|]. split; [reflexivity|].
  exact (proj1 (yield_files_extension_filter
                  (fun _ => false) ["repo"; "db"] (three_entries ["repo"; "db"])
                  Hgit eq_refl (reflexivity _))).
Defined.

(** ** The reporter *)

Section GroupFacts.
Implicit Types (groups : list (string * nat)) (key : string).

Lemma compare_refl key : String.compare key key = Eq.
Proof. apply OrderedTypeEx.String_as_OT.cmp_eq. reflexivity. Qed.

Lemma compare_gt_lt (k1 k2 : string) :
  String.compare k1 k2 = Gt -> String.compare k2 k1 = Lt.
Proof.
  intros H. rewrite String.compare_antisym, H. reflexivity.
Qed.

Lemma key_lt_trans : Transitive key_lt.
Proof.
  intros x y z Hxy Hyz. unfold key_lt in *.
  apply OrderedTypeEx.String_as_OT.cmp_lt.
  apply OrderedTypeEx.String_as_OT.cmp_lt in Hxy, Hyz.
  exact (OrderedTypeEx.String_as_OT.lt_trans _ _ _ Hxy Hyz).
Qed.

(** Adding a key adds one to its total and leaves the other totals. *)
Lemma count_in_group_add groups key k :
  count_in (group_add key groups) k =
  count_in groups k + (if String.eqb key k then 1 else 0).
Proof.
  unfold count_in.
  induction groups as [|[k' c] groups IH]; simpl.
  - destruct (String.eqb key k); reflexivity.
  - destruct (String.compare key k') eqn:Hcmp; simpl.
    + apply String.compare_eq_iff in Hcmp. subst k'.
      destruct (String.eqb key k); lia.
    + destruct (String.eqb key k); lia.
    + rewrite IH. lia.
Qed.

Lemma count_in_groupby_from keys groups k :
  count_in (fold_left (fun groups key => group_add key groups) keys groups) k =
  count_in groups k + occurrences k keys.
Proof.
  revert groups. induction keys as [|key keys IH]; intros groups; simpl.
  - unfold occurrences. simpl. lia.
  - rewrite IH, count_in_group_add. unfold occurrences. simpl.
    destruct (String.eqb key k); simpl; lia.
Qed.

Lemma count_in_groupby keys k :
  count_in (groupby_size keys) k = occurrences k keys.
Proof. unfold groupby_size. rewrite count_in_groupby_from. reflexivity. Qed.

(** The keys stay in ascending order and the counts stay positive. *)
Lemma group_add_head groups key x :
  Sorted key_lt groups -> HdRel key_lt x groups -> key_lt x (key, 1) ->
  HdRel key_lt x (group_add key groups).
Proof.
  intros _ Hhd Hx. destruct groups as [|[k' c] groups]; simpl.
  - constructor. exact Hx.
  - apply HdRel_inv in Hhd.
    destruct (String.compare key k'); constructor; assumption.
Qed.

Lemma group_add_sorted groups key :
  Sorted key_lt groups -> Sorted key_lt (group_add key groups).
Proof.
  induction 1 as [|[k' c] groups Hs IH Hhd]; simpl.
  - repeat constructor.
  - destruct (String.compare key k') eqn:Hcmp.
    + constructor; [exact Hs|].
      destruct Hhd; constructor. assumption.
    + constructor; [constructor; assumption|]. constructor. exact Hcmp.
    + constructor; [exact IH|].
      apply group_add_head; try assumption.
      apply compare_gt_lt, Hcmp.
Qed.

Lemma group_add_positive groups key :
  Forall (fun g => 0 < snd g) groups ->
  Forall (fun g => 0 < snd g) (group_add key groups).
Proof.
  induction 1 as [|[k' c] groups Hc Hs IH]; simpl.
  - repeat constructor.
  - destruct (String.compare key k'); repeat constructor; simpl in *;
      try assumption; lia.
Qed.

Lemma groupby_size_invariant keys :
  Sorted key_lt (groupby_size keys) /\
  Forall (fun g => 0 < snd g) (groupby_size keys).
Proof.
  unfold groupby_size.
  assert (H : Sorted key_lt [] /\ Forall (fun g : string * nat => 0 < snd g) [])
    by (split; constructor).
  revert H. generalize (@nil (string * nat)) as groups.
  induction keys as [|key keys IH]; intros groups [Hs Hp]; simpl.
  - split; assumption.
  - apply IH. split; [apply group_add_sorted | apply group_add_positive];
      assumption.
Qed.

(** In a table with ascending keys a key occurs once, and its count is its
    total. *)
Lemma sorted_count_in groups k c :
  Sorted key_lt groups -> (k, c) ∈ groups -> count_in groups k = c.
Proof.
  intros Hs. apply Sorted.Sorted_StronglySorted in Hs; [|exact key_lt_trans].
  induction Hs as [|[k' c'] groups Hs IH Hall]; intros Hin.
  - inversion Hin.
  - unfold count_in in *. simpl.
    apply elem_of_cons in Hin as [[= <- <-] | Hin].
    + rewrite String.eqb_refl.
      assert (Hzero : sum_list_with
                (fun g => if String.eqb (fst g) k then snd g else 0) groups = 0).
      { clear IH Hs. induction Hall as [|g groups Hg Hall IH]; simpl; [reflexivity|].
        rewrite IH. unfold key_lt in Hg. simpl in Hg.
        destruct (String.eqb_spec (fst g) k) as [<-|]; [|reflexivity].
        rewrite compare_refl in Hg. discriminate. }
      lia.
    + rewrite IH by exact Hin.
      rewrite Forall_forall in Hall. specialize (Hall _ Hin).
      unfold key_lt in Hall. simpl in Hall.
      destruct (String.eqb_spec k' k) as [->|]; [|reflexivity].
      rewrite compare_refl in Hall. discriminate.
Qed.

Lemma sorted_NoDup_keys groups :
  Sorted key_lt groups -> NoDup (List.map fst groups).
Proof.
  intros Hs. apply Sorted.Sorted_StronglySorted in Hs; [|exact key_lt_trans].
  induction Hs as [|[k c] groups Hs IH Hall]; simpl; constructor; [|exact IH].
  intros Hin. apply list_elem_of_In, in_map_iff in Hin as ([k' c'] & Hk & Hin).
  simpl in Hk. subst k'.
  rewrite Forall_forall in Hall.
  specialize (Hall _ (proj2 (list_elem_of_In _ _) Hin)).
  unfold key_lt in Hall. simpl in Hall. rewrite compare_refl in Hall.
  discriminate.
Qed.

Lemma count_in_positive groups k :
  0 < count_in groups k -> exists c, (k, c) ∈ groups.
Proof.
  unfold count_in. induction groups as [|[k' c] groups IH]; simpl; [lia|].
  destruct (String.eqb_spec k' k) as [->|Hne].
  - intros _. exists c. left.
  - intros Hpos. destruct (IH Hpos) as (c' & Hin). exists c'. right. exact Hin.
Qed.

(** The rows of [groupby(key).size()]. *)
Lemma groupby_size_elem keys k c :
  (k, c) ∈ groupby_size keys <-> c = occurrences k keys /\ 0 < c.
Proof.
  destruct (groupby_size_invariant keys) as [Hs Hp]. split.
  - intros Hin. split.
    + rewrite <- count_in_groupby. symmetry. apply sorted_count_in; assumption.
    + rewrite Forall_forall in Hp.
      apply (Hp (k, c)), Hin.
  - intros [-> Hpos]. rewrite <- count_in_groupby in Hpos |- *.
    destruct (count_in_positive _ _ Hpos) as (c & Hin).
    rewrite (sorted_count_in _ _ _ Hs Hin). exact Hin.
Qed.

Lemma occurrences_positive key keys : 0 < occurrences key keys <-> key ∈ keys.
Proof.
  unfold occurrences. induction keys as [|k keys IH]; simpl.
  - split; [lia | intros H; inversion H].
  - rewrite elem_of_cons. destruct (String.eqb_spec k key) as [->|Hne]; simpl.
    + split; [auto | lia].
    + rewrite IH. split; [auto | intros [->|H]; [contradiction | exact H]].
Qed.

(** One row per distinct key. *)
Lemma groupby_size_length keys :
  length (groupby_size keys) = length (remove_dups keys).
Proof.
  rewrite <- (length_map fst (groupby_size keys)).
  apply Permutation_length, NoDup_Permutation.
  - apply sorted_NoDup_keys, groupby_size_invariant.
  - apply NoDup_remove_dups.
  - intros k. rewrite elem_of_remove_dups, <- (occurrences_positive k keys).
    rewrite list_elem_of_In, in_map_iff. split.
    + intros ([k' c] & Hk & Hin). simpl in Hk. subst k'.
      apply list_elem_of_In, groupby_size_elem in Hin as [-> Hpos]. exact Hpos.
    + intros Hpos. exists (k, occurrences k keys). split; [reflexivity|].
      apply list_elem_of_In, groupby_size_elem. auto.
Qed.
End GroupFacts.

Lemma count_ge_trans : Transitive count_ge.
Proof. intros x y z Hxy Hyz. unfold count_ge in *. lia. Qed.

Lemma insert_desc_perm (x : string * nat) (l : list (string * nat)) :
  insert_desc x l ≡ₚ x :: l.
Proof.
  induction l as [|y l IH]; simpl; [reflexivity|].
  destruct (snd y <=? snd x); [reflexivity|].
  rewrite IH. apply Permutation_swap.
Qed.

Lemma insert_desc_sorted (x : string * nat) (l : list (string * nat)) :
  Sorted count_ge l -> Sorted count_ge (insert_desc x l).
Proof.
  induction 1 as [|y l Hs IH Hhd]; simpl.
  - repeat constructor.
  - destruct (Nat.leb_spec (snd y) (snd x)) as [Hle|Hgt].
    + constructor; [constructor; assumption|]. constructor. exact Hle.
    + constructor; [exact IH|].
      destruct l as [|z l]; simpl.
      * constructor. unfold count_ge. lia.
      * apply HdRel_inv in Hhd.
        destruct (snd z <=? snd x); constructor; unfold count_ge in *; lia.
Qed.

(** The insertion sort meets the contract of [sort_values]. *)
Lemma sort_values_desc_perm (l : list (string * nat)) : sort_values_desc l ≡ₚ l.
Proof.
  induction l as [|x l IH]; simpl; [reflexivity|].
  rewrite insert_desc_perm, IH. reflexivity.
Qed.

Lemma sort_values_desc_sorted (l : list (string * nat)) :
  Sorted count_ge (sort_values_desc l).
Proof.
  induction l as [|x l IH]; simpl; [constructor|].
  apply insert_desc_sorted, IH.
Qed.

Lemma name_count_occurrences (df : DataFrame) (name : string) :
  name_count df name = occurrences name (List.map Filename df).
Proof.
  unfold name_count, occurrences.
  induction df as [|row df IH]; simpl; [reflexivity|].
  destruct (String.eqb (Filename row) name); simpl; rewrite IH; reflexivity.
Qed.

Section ReporterFacts.
Variable sort_values : list (string * nat) -> list (string * nat).
Hypothesis sort_perm : forall l, sort_values l ≡ₚ l.
Hypothesis sort_sorted : forall l, Sorted count_ge (sort_values l).

(** [head(10)] is taken in both branches of the conditional. *)
Lemma filename_freqs_take (df : DataFrame) :
  filename_freqs sort_values df =
  take 10 (sort_values (groupby_size (List.map Filename df))).
Proof.
  unfold filename_freqs.
  destruct (Nat.leb_spec 10
              (length (sort_values (groupby_size (List.map Filename df)))))
    as [Hge|Hlt]; [reflexivity|].
  symmetry. apply take_ge. lia.
Qed.

Lemma filename_freqs_elem (df : DataFrame) (name : string) (c : nat) :
  (name, c) ∈ filename_freqs sort_values df ->
  c = name_count df name /\ 0 < c.
Proof.
  rewrite filename_freqs_take. intros Hin.
  apply (subseteq_take 10) in Hin. rewrite sort_perm in Hin.
  apply groupby_size_elem in Hin. rewrite name_count_occurrences. exact Hin.
Qed.

Lemma filename_freqs_length (df : DataFrame) :
  length (filename_freqs sort_values df) =
  min 10 (length (remove_dups (List.map Filename df))).
Proof.
  rewrite filename_freqs_take, length_take, sort_perm, groupby_size_length.
  reflexivity.
Qed.

Lemma sorted_freqs_strongly (df : DataFrame) :
  StronglySorted count_ge
    (take 10 (sort_values (groupby_size (List.map Filename df)))
     ++ drop 10 (sort_values (groupby_size (List.map Filename df)))).
Proof.
  rewrite take_drop.
  apply Sorted.Sorted_StronglySorted; [exact count_ge_trans | apply sort_sorted].
Qed.

Lemma filename_freqs_sorted (df : DataFrame) :
  Sorted count_ge (filename_freqs sort_values df).
Proof.
  rewrite filename_freqs_take.
  apply StronglySorted_Sorted.
  exact (StronglySorted_app_1_l _ _ _ (sorted_freqs_strongly df)).
Qed.

Lemma filename_freqs_NoDup (df : DataFrame) :
  NoDup (List.map fst (filename_freqs sort_values df)).
Proof.
  rewrite filename_freqs_take.
  change (NoDup (fst <$> take 10 (sort_values (groupby_size (List.map Filename df))))).
  rewrite fmap_take.
  eapply sublist_NoDup; [|apply sublist_take].
  rewrite sort_perm.
  apply sorted_NoDup_keys, groupby_size_invariant.
Qed.

(** A name left out of the list has no more rows than any name in it. *)
Lemma filename_freqs_dominate (df : DataFrame) (name name' : string) (c' : nat) :
  0 < name_count df name ->
  name ∉ List.map fst (filename_freqs sort_values df) ->
  (name', c') ∈ filename_freqs sort_values df ->
  name_count df name <= c'.
Proof.
  rewrite filename_freqs_take. intros Hpos Hout Hin.
  assert (Hrow : (name, name_count df name)
                 ∈ sort_values (groupby_size (List.map Filename df))).
  { rewrite sort_perm. apply groupby_size_elem.
    rewrite name_count_occurrences in *. auto. }
  rewrite <- (take_drop 10) in Hrow. apply elem_of_app in Hrow as [Hrow|Hrow].
  - exfalso. apply Hout.
    apply list_elem_of_In, in_map_iff. exists (name, name_count df name).
    split; [reflexivity|]. apply list_elem_of_In, Hrow.
  - exact (StronglySorted_app_1_elem_of _ _ _ _ _
             (sorted_freqs_strongly df) Hin Hrow).
Qed.
End ReporterFacts.

(** A file whose name no other file of the table shares has as many rows
    under its name as under its path. *)
Lemma name_count_file_count (df : DataFrame) (path : string) :
  (forall row, row ∈ df ->
     Filename row = Path_name (Path_of_str path) -> Filepath row = path) ->
  name_count df (Path_name (Path_of_str path)) = file_count df path.
Proof.
  intros Huniq. unfold name_count, file_count. f_equal.
  apply filter_ext_in. intros row Hrow.
  destruct (String.eqb_spec (Filepath row) path) as [Hp|Hp].
  - unfold Filename. rewrite Hp. apply String.eqb_refl.
  - apply String.eqb_neq. intros Hname. apply Hp, Huniq; [|exact Hname].
    apply list_elem_of_In, Hrow.
Qed.

(** C7, as stated, fails when files share a name: fifteen distinct files
    called [q.sql], one match each, give a list of one entry, not ten. *)
Lemma filename_freqs_top10_counterexample :
  length (remove_dups (List.map Filepath fifteen_files)) = 15 /\
  filename_freqs sort_values_desc fifteen_files = [("q.sql", 15)] /\
  length (filename_freqs sort_values_desc fifteen_files) <> 10.
Proof.
  split; [vm_compute; reflexivity|].
  split; [vm_compute; reflexivity|].
  vm_compute. discriminate.
Qed.

(** C7 (amended). The list ranks file names, the last component of the
    path, and counts together the matches of files that share a name.  For
    every sort that returns a permutation ordered by descending count, the
    list has ten entries, or one per distinct name when these are fewer; it
    is in descending order of count; its names are pairwise distinct; each
    entry carries the number of rows with that name; no name left out has more
    rows than a name in the list; and for a file that shares its name with no
    other file the count of the name is the match count of the file. *)
Theorem filename_freqs_top10
        (sort_values : list (string * nat) -> list (string * nat))
        (df : DataFrame) :
  (forall l, sort_values l ≡ₚ l) ->
  (forall l, Sorted count_ge (sort_values l)) ->
  length (filename_freqs sort_values df)
    = min 10 (length (remove_dups (List.map Filename df))) /\
  Sorted count_ge (filename_freqs sort_values df) /\
  NoDup (List.map fst (filename_freqs sort_values df)) /\
  (forall name c, (name, c) ∈ filename_freqs sort_values df ->
                  c = name_count df name /\ 0 < c) /\
  (forall name name' c',
     0 < name_count df name ->
     name ∉ List.map fst (filename_freqs sort_values df) ->
     (name', c') ∈ filename_freqs sort_values df ->
     name_count df name <= c') /\
  (forall path,
     (forall row, row ∈ df ->
        Filename row = Path_name (Path_of_str path) -> Filepath row = path) ->
     name_count df (Path_name (Path_of_str path)) = file_count df path).
Proof.
  intros Hperm Hsorted.
  split; [apply filename_freqs_length, Hperm|].
  split; [apply filename_freqs_sorted, Hsorted|].
  split; [apply filename_freqs_NoDup, Hperm|].
  split; [|split].
  - intros name c Hin. exact (filename_freqs_elem sort_values Hperm df name c Hin).
  - intros name name' c'. apply filename_freqs_dominate; assumption.
  - apply name_count_file_count.
Qed.

Lemma filename_freqs_top10_witness :
  (forall l, sort_values_desc l ≡ₚ l) /\
  (forall l, Sorted count_ge (sort_values_desc l)) /\
  length (filename_freqs sort_values_desc three_files_table)
    = min 10 (length (remove_dups (List.map Filename three_files_table))) /\
  Sorted count_ge (filename_freqs sort_values_desc three_files_table).
Proof.
  split; [exact sort_values_desc_perm|]. split; [exact sort_values_desc_sorted|].
  destruct (filename_freqs_top10 sort_values_desc three_files_table
              sort_values_desc_perm sort_values_desc_sorted) as (Hl & Hs & _).
  split; [exact Hl | exact Hs].
Defined.

(** C8, as stated, fails on a store file that exists and holds no row: the
    summary is printed, not the short message. *)
Lemma provide_output_message_counterexample :
  store_rows disk_with_empty_store = [] /\
  fst (provide_output sort_values_desc disk_with_empty_store)
    = Summary 0 0 [] [] /\
  fst (provide_output sort_values_desc disk_with_empty_store) <> NoSqlFound.
Proof.
  split; [vm_compute; reflexivity|].
  split; [vm_compute; reflexivity|].
  vm_compute. discriminate.
Qed.

(** C8 (amended). [provide_output] prints the short message exactly when the
    store file is absent; when the file exists, whatever it holds, it prints
    the summary: number of rows, number of distinct file paths, the list of
    file names and the per-file counts that are summarised.  The disk is left
    as it was in both cases. *)
Theorem provide_output_message
        (sort_values : list (string * nat) -> list (string * nat))
        (disk : gmap string DataFrame) :
  (fst (provide_output sort_values disk) = NoSqlFound
   <-> disk !! RESULTS_DF = None) /\
  (forall df, disk !! RESULTS_DF = Some df ->
     fst (provide_output sort_values disk) =
       Summary (length df)
               (length (remove_dups (List.map Filepath df)))
               (filename_freqs sort_values df)
               (List.map snd (groupby_size (List.map Filepath df)))) /\
  snd (provide_output sort_values disk) = disk.
Proof.
  unfold provide_output.
  destruct (disk !! RESULTS_DF) as [df|] eqn:Hstore; simpl.
  - split; [split; discriminate|]. split; [|reflexivity].
    intros df' [= <-]. reflexivity.
  - split; [split; reflexivity|]. split; [discriminate | reflexivity].
Qed.

(** * Further properties *)

(** ** The batcher at every batch size *)

Lemma yield_file_batches_zero {A : Type} (l : list A) :
  yield_file_batches 0 l = List.map (fun x => [x]) l.
Proof.
  unfold yield_file_batches. induction l as [|x l IH]; simpl; [reflexivity|].
  rewrite IH. reflexivity.
Qed.

Lemma last_batch_size_bounds (n B : nat) :
  0 < B -> 0 < last_batch_size n B <= B.
Proof.
  intros HB. unfold last_batch_size.
  pose proof (Nat.mod_upper_bound n B ltac:(lia)).
  destruct (Nat.eqb_spec (n mod B) 0); lia.
Qed.

(** X1. Whatever the batch size, zero included, no batch is empty, no batch
    holds more than [max B 1] files and the batches put end to end are the
    input; with size zero every file is a batch of its own. *)
Theorem yield_file_batches_any_size {A : Type} (B : nat) (files : list A) :
  Forall (fun b => 0 < length b <= max B 1) (yield_file_batches B files) /\
  concat (yield_file_batches B files) = files /\
  (B = 0 -> yield_file_batches B files = List.map (fun x => [x]) files).
Proof.
  destruct B as [|B].
  - rewrite yield_file_batches_zero. split; [|split].
    + apply Forall_forall. intros b Hb.
      apply list_elem_of_In, in_map_iff in Hb as (x & <- & _). simpl. lia.
    + induction files as [|x l IH]; simpl; [reflexivity|]. rewrite IH. reflexivity.
    + reflexivity.
  - assert (HB : 0 < S B) by lia. split; [|split].
    + apply Forall_forall. intros b Hb.
      apply list_elem_of_lookup in Hb as (i & Hi).
      pose proof (yield_file_batches_sizes (S B) HB files i b Hi) as Hs.
      pose proof (last_batch_size_bounds (length files) (S B) HB).
      destruct (S i =? length (yield_file_batches (S B) files)); lia.
    + apply yield_file_batches_concat, HB.
    + discriminate.
Qed.

(** ** The enumerator without a filter, and with an empty one *)

Lemma skip_file_no_filter (is_dir : Path -> bool) (file : Path) :
  skip_file is_dir None file = false <->
  is_dir file = false /\ (".git" ∉ parts file).
Proof.
  unfold skip_file, REASONS_TO_SKIP_FILE, any. simpl.
  rewrite !orb_false_iff, bool_decide_eq_false. tauto.
Qed.

Lemma yield_files_sublist (is_dir : Path -> bool)
      (target_exts : option (list string)) (glob : list Path) :
  yield_files is_dir target_exts glob `sublist_of` glob.
Proof.
  induction glob as [|file glob IH]; simpl; [constructor|].
  destruct (skip_file is_dir target_exts file); constructor; exact IH.
Qed.

(** X2. The files yielded are entries of the walk, in the order of the walk
    and as often as the walk gives them; a directory or an entry below [.git]
    is never yielded.  Without a filter every other entry is yielded; with a
    filter list that is empty nothing is. *)
Theorem yield_files_skips (is_dir : Path -> bool)
        (target_exts : option (list string)) (glob : list Path) :
  yield_files is_dir target_exts glob `sublist_of` glob /\
  (forall file, file ∈ yield_files is_dir target_exts glob ->
                is_dir file = false /\ (".git" ∉ parts file)) /\
  (forall file, file ∈ yield_files is_dir None glob <->
                file ∈ glob /\ is_dir file = false /\ (".git" ∉ parts file)) /\
  yield_files is_dir (Some []) glob = [].
Proof.
  split; [apply yield_files_sublist|]. split; [|split].
  - intros file. rewrite yield_files_filter, list_elem_of_In, filter_In.
    intros [_ Hkeep]. apply negb_true_iff in Hkeep.
    unfold skip_file, REASONS_TO_SKIP_FILE, any in Hkeep. simpl in Hkeep.
    rewrite !orb_false_iff, bool_decide_eq_false in Hkeep. tauto.
  - intros file.
    rewrite yield_files_filter, list_elem_of_In, filter_In, <- list_elem_of_In.
    rewrite negb_true_iff, skip_file_no_filter. tauto.
  - induction glob as [|file glob IH]; simpl; [reflexivity|].
    replace (skip_file is_dir (Some []) file) with true; [exact IH|].
    unfold skip_file. rewrite (bool_decide_eq_false_2 (Path_suffix file ∈ [])).
    + simpl. rewrite !orb_true_r. reflexivity.
    + intros Hin. inversion Hin.
Qed.

(** ** What a match looks like *)

Lemma match_here_lit (c a : ascii) (p : list re_item) (s : string) :
  match_here (Lit c :: p) (String a s) =
  if Ascii.eqb a c then option_map S (match_here p s) else None.
Proof. reflexivity. Qed.

Lemma match_here_lazy (a : ascii) (p : list re_item) (s : string) :
  match_here (LazyDotPlus :: p) (String a s) =
  if Ascii.eqb a line_feed then None
  else match match_here p s with
       | Some n => Some (S n)
       | None => option_map S (match_here (LazyDotPlus :: p) s)
       end.
Proof. reflexivity. Qed.

(** A match takes at least one character per item of the pattern and no
    more characters than the text has. *)
Lemma match_here_bounds (p : list re_item) (s : string) (n : nat) :
  match_here p s = Some n -> length p <= n /\ n <= String.length s.
Proof.
  revert s n. induction p as [|[c|] p IH]; intros s n.
  - intros [= <-]. simpl. lia.
  - destruct s as [|a s]; [discriminate|]. rewrite match_here_lit.
    destruct (Ascii.eqb a c); [|discriminate].
    destruct (match_here p s) as [n'|] eqn:E; [|discriminate].
    intros [= <-]. apply IH in E. simpl. lia.
  - revert n. induction s as [|a s IHs]; intros n; [discriminate|].
    rewrite match_here_lazy.
    destruct (Ascii.eqb a line_feed); [discriminate|].
    destruct (match_here p s) as [n'|] eqn:E.
    + intros [= <-]. apply IH in E. simpl. lia.
    + destruct (match_here (LazyDotPlus :: p) s) as [n'|] eqn:E2; [|discriminate].
      intros [= <-]. specialize (IHs n' eq_refl). simpl in *. lia.
Qed.

Lemma get_cons_pred (a : ascii) (s : string) (n : nat) :
  1 <= n -> String.get (S n - 1) (String a s) = String.get (n - 1) s.
Proof. intros Hn. destruct n as [|n]; [lia|]. simpl. rewrite Nat.sub_0_r. reflexivity. Qed.

(** When the pattern ends with a literal character, so does the match. *)
Lemma match_here_last (p : list re_item) (c : ascii) (s : string) (n : nat) :
  last p = Some (Lit c) ->
  match_here p s = Some n ->
  String.get (n - 1) s = Some c.
Proof.
  revert s n. induction p as [|item p IH]; intros s n Hlast; [discriminate|].
  destruct p as [|item' p'].
  - injection Hlast as ->.
    destruct s as [|a s]; [discriminate|]. rewrite match_here_lit.
    destruct (Ascii.eqb_spec a c) as [->|]; [|discriminate].
    intros [= <-]. reflexivity.
  - change (last (item' :: p') = Some (Lit c)) in Hlast.
    specialize (fun s n => IH s n Hlast).
    destruct item as [c'|].
    + destruct s as [|a s]; [discriminate|]. rewrite match_here_lit.
      destruct (Ascii.eqb a c'); [|discriminate].
      destruct (match_here (item' :: p') s) as [n'|] eqn:E; [|discriminate].
      intros [= <-]. pose proof (match_here_bounds _ _ _ E) as [Hn _].
      simpl in Hn. rewrite get_cons_pred by lia. apply IH, E.
    + revert n. induction s as [|a s IHs]; intros n; [discriminate|].
      rewrite match_here_lazy.
      destruct (Ascii.eqb a line_feed); [discriminate|].
      destruct (match_here (item' :: p') s) as [n'|] eqn:E.
      * intros [= <-]. pose proof (match_here_bounds _ _ _ E) as [Hn _].
        simpl in Hn. rewrite get_cons_pred by lia. apply IH, E.
      * destruct (match_here (LazyDotPlus :: item' :: p') s) as [n'|] eqn:E2;
          [|discriminate].
        intros [= <-]. pose proof (match_here_bounds _ _ _ E2) as [Hn _].
        simpl in Hn. rewrite get_cons_pred by lia. apply IHs. reflexivity.
Qed.

(** When the pattern begins with literal text, so does the text matched. *)
Lemma match_here_literal (w : string) (p : list re_item) (s : string) (n : nat) :
  match_here (literal w ++ p) s = Some n ->
  String.prefix w s = true /\ String.length w <= n.
Proof.
  revert s n. induction w as [|c w IH]; intros s n.
  - intros _. split; [destruct s; reflexivity | simpl; lia].
  - change (literal (String c w) ++ p) with (Lit c :: (literal w ++ p)).
    destruct s as [|a s]; [discriminate|]. rewrite match_here_lit.
    destruct (Ascii.eqb_spec a c) as [->|]; [|discriminate].
    destruct (match_here (literal w ++ p) s) as [n'|] eqn:E; [|discriminate].
    intros [= <-]. apply IH in E as [Hp Hl]. simpl.
    destruct (ascii_dec c c) as [_|Hne]; [|contradiction].
    split; [exact Hp | lia].
Qed.

Lemma length_substring0 (n : nat) (s : string) :
  n <= String.length s -> String.length (String.substring 0 n s) = n.
Proof.
  revert s. induction n as [|n IH]; intros s Hn.
  - destruct s; reflexivity.
  - destruct s as [|a s]; simpl in *; [lia|]. rewrite IH by lia. reflexivity.
Qed.

Lemma prefix_substring0 (w s : string) (n : nat) :
  String.prefix w s = true -> String.length w <= n ->
  String.prefix w (String.substring 0 n s) = true.
Proof.
  revert s n. induction w as [|c w IH]; intros s n Hp Hn.
  - destruct (String.substring 0 n s); reflexivity.
  - destruct s as [|a s]; [discriminate|].
    destruct n as [|n]; simpl in Hn; [lia|]. simpl in *.
    destruct (ascii_dec c a); [|discriminate]. apply IH; [exact Hp | lia].
Qed.

Lemma all_chars_substring0 (P : ascii -> bool) (n : nat) (s : string) :
  all_chars P s = true -> all_chars P (String.substring 0 n s) = true.
Proof.
  revert s. induction n as [|n IH]; intros s Hs.
  - destruct s; reflexivity.
  - destruct s as [|a s]; [reflexivity|]. simpl in *.
    apply andb_true_iff in Hs as [Ha Hs]. rewrite Ha, IH by exact Hs. reflexivity.
Qed.

(** Every match of the scan is the text matched at some position. *)
Lemma finditer_from_elem (p : list re_item) (skip : nat) (s m : string) :
  m ∈ finditer_from p skip s ->
  exists pre t n,
    s = (pre ++ t)%string /\ match_here p t = Some n /\
    m = String.substring 0 n t.
Proof.
  revert skip. induction s as [|a s IH]; intros skip Hm.
  - simpl in Hm. destruct skip; [|inversion Hm].
    destruct (match_here p "") as [n|] eqn:E; [|inversion Hm].
    apply list_elem_of_singleton in Hm. subst m.
    exists "", "", n. repeat split; [exact E | destruct n; reflexivity].
  - cbn [finditer_from] in Hm. destruct skip as [|k].
    + destruct (match_here p (String a s)) as [n|] eqn:E.
      * apply elem_of_cons in Hm as [-> | Hm].
        -- exists "", (String a s), n. auto.
        -- destruct (IH _ Hm) as (pre & t & n' & -> & Ht & ->).
           exists (String a pre), t, n'. auto.
      * destruct (IH _ Hm) as (pre & t & n' & -> & Ht & ->).
        exists (String a pre), t, n'. auto.
    + destruct (IH _ Hm) as (pre & t & n' & -> & Ht & ->).
      exists (String a pre), t, n'. auto.
Qed.

Lemma upper_ascii_not_lower (a : ascii) : is_lower (upper_ascii a) = false.
Proof.
  destruct a as [[] [] [] [] [] [] [] []]; vm_compute; reflexivity.
Qed.

Lemma upper_no_lower (s : string) :
  all_chars (fun a => negb (is_lower a)) (upper s) = true.
Proof.
  induction s as [|a s IH]; simpl; [reflexivity|].
  rewrite upper_ascii_not_lower, IH. reflexivity.
Qed.

Lemma all_chars_and (P Q : ascii -> bool) (s : string) :
  all_chars P s = true -> all_chars Q s = true ->
  all_chars (fun a => P a && Q a) s = true.
Proof.
  induction s as [|a s IH]; simpl; [reflexivity|].
  rewrite !andb_true_iff. intros [HP Hs] [HQ Hs'].
  rewrite HP, HQ, IH by assumption. auto.
Qed.

Lemma well_formed_sql_match (bytes : list Byte.byte) (m : string) :
  m ∈ finditer SQL_PATTERN (upper (bytes_str bytes)) -> well_formed_match m.
Proof.
  intros Hm. apply finditer_from_elem in Hm as (pre & t & n & Hs & Ht & ->).
  pose proof (match_here_bounds _ _ _ Ht) as [Hlen Hle].
  change (length SQL_PATTERN) with 14 in Hlen.
  unfold well_formed_match. rewrite length_substring0 by exact Hle.
  split; [|split; [|split]].
  - apply prefix_substring0.
    + apply (match_here_literal "SELECT " _ _ _ Ht).
    + simpl. lia.
  - unfold last_char. rewrite length_substring0 by exact Hle.
    rewrite String.substring_correct1 by lia. rewrite Nat.add_0_r.
    apply (match_here_last SQL_PATTERN); [reflexivity | exact Ht].
  - exact Hlen.
  - apply all_chars_substring0.
    assert (Hall : all_chars upper_printable (pre ++ t) = true).
    { rewrite <- Hs. apply all_chars_and; [apply bytes_str_printable|].
      apply upper_no_lower. }
    rewrite all_chars_app in Hall. apply andb_true_iff in Hall. tauto.
Qed.

(** X3. Every row [process_file] returns carries the path of the file as
    text, and a statement that begins with [SELECT ] and ends with a
    semicolon, is at least fourteen characters long, and holds printable
    characters only, none of them a lowercase letter. *)
Theorem process_file_rows_well_formed (env : Env) (file : Path)
        (rows : DataFrame) (row : MatchRecord) :
  process_file env file = Return rows ->
  row ∈ rows ->
  Filepath row = Path_str file /\ well_formed_match (Sql row).
Proof.
  unfold process_file.
  destruct (read_bytes env file) as [bytes|e]; [|discriminate].
  rewrite fold_rows. intros [= <-] Hrow. simpl in Hrow.
  apply list_elem_of_In, in_map_iff in Hrow as (m & <- & Hm). simpl.
  split; [reflexivity|].
  apply (well_formed_sql_match bytes), list_elem_of_In, Hm.
Qed.

Lemma process_file_rows_well_formed_witness :
  process_file (reading two_statements) demo_file
    = Return [mkRow "src/a.sql" "SELECT A FROM T;";
              mkRow "src/a.sql" "SELECT B FROM U WHERE X;"] /\
  well_formed_match "SELECT B FROM U WHERE X;".
Proof.
  assert (Hrun : process_file (reading two_statements) demo_file
                 = Return [mkRow "src/a.sql" "SELECT A FROM T;";
                           mkRow "src/a.sql" "SELECT B FROM U WHERE X;"]).
  { vm_compute. reflexivity. }
  split; [exact Hrun|].
  refine (proj2 (process_file_rows_well_formed
                   (reading two_statements) demo_file _
                   (mkRow "src/a.sql" "SELECT B FROM U WHERE X;") Hrun _)).
  right. left.
Defined.

(** ** Merging in sequence *)

Lemma save_all_other (disk : gmap string DataFrame) (file_paths : list string)
      (q : string) :
  q <> RESULTS_DF -> save_all file_paths disk !! q = disk !! q.
Proof.
  intros Hq. revert disk. induction file_paths as [|p ps IH]; intros disk.
  - reflexivity.
  - rewrite save_all_cons, IH. apply save_results_other, Hq.
Qed.

(** X6. After artifacts are merged one after the other, the store holds the
    rows it had, followed by the rows of the artifacts in the order of the
    merges; a path that names no file adds nothing; every file other than the
    store, the artifacts included, is left as it was. *)
Theorem save_all_content (disk : gmap string DataFrame)
        (file_paths : list string) :
  Forall (fun p => p <> RESULTS_DF) file_paths ->
  store_rows (save_all file_paths disk) =
    store_rows disk ++ concat (List.map (artifact_rows disk) file_paths) /\
  (forall q, q <> RESULTS_DF -> save_all file_paths disk !! q = disk !! q).
Proof.
  intros Hne. split.
  - apply save_all_store, Hne.
  - intros q Hq. apply save_all_other, Hq.
Qed.

Lemma save_all_content_witness :
  Forall (fun p => p <> RESULTS_DF) ["/tmp/w/u1"; "/tmp/w/missing"] /\
  store_rows (save_all ["/tmp/w/u1"; "/tmp/w/missing"] disk_with_store) =
    [mkRow "src/a.sql" "SELECT A FROM T;"; mkRow "src/b.sql" "SELECT B FROM U;"].
Proof.
  assert (H : Forall (fun p => p <> RESULTS_DF) ["/tmp/w/u1"; "/tmp/w/missing"]).
  { repeat constructor; discriminate. }
  split; [exact H|].
  rewrite (proj1 (save_all_content disk_with_store _ H)).
  vm_compute. reflexivity.
Defined.

(** ** Collecting what the workers returned *)

Lemma collect_store_rows (p : string) (exc : option string)
      (disk : gmap string DataFrame) :
  p <> RESULTS_DF ->
  store_rows (collect (Some p, exc) disk) = store_rows disk ++ artifact_rows disk p.
Proof.
  intros Hp. unfold collect. simpl. rewrite <- save_results_store.
  unfold store_rows. rewrite lookup_delete_ne by exact Hp. reflexivity.
Qed.

Lemma collect_other (p q : string) (exc : option string)
      (disk : gmap string DataFrame) :
  q <> p -> q <> RESULTS_DF -> collect (Some p, exc) disk !! q = disk !! q.
Proof.
  intros Hqp Hq. unfold collect. simpl.
  rewrite lookup_delete_ne by congruence. apply save_results_other, Hq.
Qed.

Lemma collect_gone (p : string) (exc : option string)
      (disk : gmap string DataFrame) :
  collect (Some p, exc) disk !! p = None.
Proof. unfold collect. simpl. apply lookup_delete_eq. Qed.

Lemma artifact_rows_ext (d d' : gmap string DataFrame) (paths : list string) :
  (forall q, q ∈ paths -> d' !! q = d !! q) ->
  List.map (artifact_rows d') paths = List.map (artifact_rows d) paths.
Proof.
  intros Hsame. apply map_ext_in. intros q Hq. unfold artifact_rows.
  rewrite Hsame by (apply list_elem_of_In, Hq). reflexivity.
Qed.

Lemma collect_all_cons ret rets (disk : gmap string DataFrame) :
  collect_all (ret :: rets) disk = collect_all rets (collect ret disk).
Proof. reflexivity. Qed.

Lemma collect_all_facts (rets : list (option string * option string)) :
  forall disk : gmap string DataFrame,
  NoDup (pending_paths rets) ->
  Forall (fun p => p <> RESULTS_DF /\ is_Some (disk !! p)) (pending_paths rets) ->
  store_rows (collect_all rets disk) =
    store_rows disk ++ concat (List.map (artifact_rows disk) (pending_paths rets)) /\
  (forall p, p ∈ pending_paths rets -> collect_all rets disk !! p = None) /\
  (forall q, q <> RESULTS_DF -> q ∉ pending_paths rets ->
             collect_all rets disk !! q = disk !! q).
Proof.
  induction rets as [|[[p|] exc] rets IH]; intros disk Hnodup Hall.
  - simpl. rewrite app_nil_r. split; [reflexivity|]. split; [|reflexivity].
    intros p Hp. inversion Hp.
  - change (pending_paths ((Some p, exc) :: rets)) with (p :: pending_paths rets)
      in *.
    apply NoDup_cons in Hnodup as [Hp Hnodup].
    apply Forall_cons in Hall as [[Hstore Hexists] Hall].
    rewrite collect_all_cons.
    assert (Hsame : forall q, q ∈ pending_paths rets ->
                      collect (Some p, exc) disk !! q = disk !! q).
    { intros q Hq. rewrite Forall_forall in Hall.
      apply collect_other; [intros -> ; contradiction | apply (Hall q Hq)]. }
    destruct (IH (collect (Some p, exc) disk) Hnodup) as (Hrows & Hgone & Hkeep).
    { rewrite Forall_forall in Hall |- *. intros q Hq.
      rewrite (Hsame q Hq). apply Hall, Hq. }
    split; [|split].
    + rewrite Hrows, collect_store_rows by exact Hstore.
      rewrite (artifact_rows_ext disk _ _ Hsame). simpl.
      rewrite <- app_assoc. reflexivity.
    + intros q Hq. apply elem_of_cons in Hq as [-> | Hq].
      * rewrite Hkeep by assumption. apply collect_gone.
      * apply Hgone, Hq.
    + intros q Hq Hout. apply not_elem_of_cons in Hout as [Hqp Hout].
      rewrite Hkeep by assumption. apply collect_other; assumption.
  - change (pending_paths ((None, exc) :: rets)) with (pending_paths rets) in *.
    rewrite collect_all_cons. apply IH; assumption.
Qed.

(** X7. When the paths returned by the workers are pairwise distinct and
    each names an artifact on the disk, collecting them leaves the store with
    the rows it had followed by the rows of the artifacts in the order of
    collection, leaves none of the artifacts on the disk, and leaves every
    other file as it was; pairs without a path change nothing. *)
Theorem collect_all_content (rets : list (option string * option string))
        (disk : gmap string DataFrame) :
  NoDup (pending_paths rets) ->
  Forall (fun p => p <> RESULTS_DF /\ is_Some (disk !! p)) (pending_paths rets) ->
  store_rows (collect_all rets disk) =
    store_rows disk ++ concat (List.map (artifact_rows disk) (pending_paths rets)) /\
  (forall p, p ∈ pending_paths rets -> collect_all rets disk !! p = None) /\
  (forall q, q <> RESULTS_DF -> q ∉ pending_paths rets ->
             collect_all rets disk !! q = disk !! q).
Proof. intros Hnodup Hall. apply collect_all_facts; assumption. Qed.

Lemma collect_all_content_witness :
  NoDup (pending_paths [(None, Some "Traceback"); (Some "/tmp/w/u1", None)]) /\
  Forall (fun p => p <> RESULTS_DF /\ is_Some (disk_with_store !! p))
         (pending_paths [(None, Some "Traceback"); (Some "/tmp/w/u1", None)]) /\
  store_rows (collect_all [(None, Some "Traceback"); (Some "/tmp/w/u1", None)]
                          disk_with_store)
    = [mkRow "src/a.sql" "SELECT A FROM T;"; mkRow "src/b.sql" "SELECT B FROM U;"] /\
  collect_all [(None, Some "Traceback"); (Some "/tmp/w/u1", None)]
              disk_with_store !! "/tmp/w/u1" = None.
Proof.
  assert (Hnodup : NoDup (pending_paths
                            [(None, Some "Traceback"); (Some "/tmp/w/u1", None)])).
  { apply NoDup_singleton. }
  assert (Hall : Forall (fun p => p <> RESULTS_DF /\ is_Some (disk_with_store !! p))
                   (pending_paths
                      [(None, Some "Traceback"); (Some "/tmp/w/u1", None)])).
  { repeat constructor; [discriminate|]. vm_compute. eauto. }
  split; [exact Hnodup|]. split; [exact Hall|].
  destruct (collect_all_content _ disk_with_store Hnodup Hall) as (Hrows & Hgone & _).
  split.
  - rewrite Hrows. vm_compute. reflexivity.
  - apply Hgone. left.
Defined.

(** ** The polling loop *)

Section CollectorFacts.
Context {Future : Type} `{EqDecision Future}.
Variable ready : nat -> Future -> bool.
Implicit Types (futures : list Future) (future : Future).

Lemma list_remove_head future futures :
  list_remove future (future :: futures) = Some futures.
Proof. simpl. destruct (decide (future = future)); [reflexivity | contradiction]. Qed.

Lemma list_remove_perm future futures futures' :
  list_remove future futures = Some futures' -> futures ≡ₚ future :: futures'.
Proof.
  revert futures'. induction futures as [|f futures IH]; intros futures'; simpl.
  - discriminate.
  - destruct (decide (future = f)) as [->|Hne].
    + intros [= <-]. reflexivity.
    + destruct (list_remove future futures) as [rest|]; [|discriminate].
      intros [= <-]. rewrite (IH rest eq_refl). apply Permutation_swap.
Qed.

Lemma list_remove_elem future futures :
  future ∈ futures -> is_Some (list_remove future futures).
Proof.
  induction futures as [|f futures IH]; intros Hin; [inversion Hin|]. simpl.
  destruct (decide (future = f)) as [->|Hne]; [eauto|].
  apply elem_of_cons in Hin as [->|Hin]; [contradiction|].
  destruct (IH Hin) as [rest ->]. simpl. eauto.
Qed.

Lemma remove_futures_self futures : remove_futures futures futures = Some [].
Proof.
  induction futures as [|f futures IH]; [reflexivity|].
  cbn [remove_futures]. rewrite list_remove_head. exact IH.
Qed.

(** Removing futures that are in the list never raises and leaves the
    others. *)
Lemma remove_futures_submseteq (yielded : list Future) :
  forall futures, yielded ⊆+ futures ->
  exists rest, remove_futures yielded futures = Some rest /\
               futures ≡ₚ yielded ++ rest.
Proof.
  induction yielded as [|f yielded IH]; intros futures Hsub.
  - exists futures. split; reflexivity.
  - apply submseteq_cons_l in Hsub as (k & Hk & Hsub).
    destruct (list_remove_elem f futures) as [futures' Hrem].
    { rewrite Hk. left. }
    pose proof (list_remove_perm _ _ _ Hrem) as Hperm.
    assert (Hk' : k ≡ₚ futures').
    { apply (Permutation_cons_inv (a := f)). rewrite <- Hk. exact Hperm. }
    destruct (IH futures') as (rest & Hrest & Hp).
    { rewrite <- Hk'. exact Hsub. }
    exists rest. cbn [remove_futures]. rewrite Hrem. split; [exact Hrest|].
    rewrite Hperm, Hp. reflexivity.
Qed.

Lemma poll_pass_sublist asked futures :
  fst (poll_pass ready asked futures) `sublist_of` futures /\
  snd (poll_pass ready asked futures) = asked + length futures.
Proof.
  revert asked. induction futures as [|f futures IH]; intros asked; simpl.
  - split; [constructor | lia].
  - destruct (IH (S asked)) as [Hsub Hasked].
    destruct (poll_pass ready (S asked) futures) as [yielded asked'].
    simpl in *. destruct (ready asked f); simpl.
    + split; [constructor; exact Hsub | lia].
    + split; [constructor; exact Hsub | lia].
Qed.

Lemma poll_pass_all (T asked : nat) futures :
  (forall t f, T <= t -> f ∈ futures -> ready t f = true) ->
  T <= asked ->
  fst (poll_pass ready asked futures) = futures.
Proof.
  revert asked. induction futures as [|f futures IH]; intros asked Hready Hasked;
    simpl; [reflexivity|].
  assert (Hrest : fst (poll_pass ready (S asked) futures) = futures).
  { apply IH; [|lia]. intros t f' Ht Hf'. apply Hready; [exact Ht | right; exact Hf']. }
  destruct (poll_pass ready (S asked) futures) as [yielded asked'].
  simpl in Hrest. subst yielded.
  rewrite (Hready asked f Hasked) by left. reflexivity.
Qed.

Lemma yield_completed_futures_nil fuel asked :
  yield_completed_futures ready fuel asked [] = Some (Return ([], 0)).
Proof. destruct fuel; reflexivity. Qed.

Lemma yield_completed_futures_ends (T : nat) :
  forall fuel asked futures,
  (forall t f, T <= t -> f ∈ futures -> ready t f = true) ->
  T - asked < fuel ->
  exists yielded sleeps,
    yield_completed_futures ready fuel asked futures
      = Some (Return (yielded, sleeps)) /\
    yielded ≡ₚ futures /\ sleeps <= T - asked /\
    (T <= asked -> yielded = futures).
Proof.
  induction fuel as [|fuel IH]; intros asked futures Hready Hfuel; [lia|].
  destruct futures as [|f0 futures0] eqn:Hfut.
  { exists [], 0. simpl. repeat split; auto. lia. }
  assert (Hne : futures <> []) by (rewrite Hfut; discriminate).
  rewrite <- Hfut in *. clear Hfut.
  pose proof (poll_pass_sublist asked futures) as [Hsub Hasked].
  destruct (remove_futures_submseteq _ futures (sublist_submseteq _ _ Hsub))
    as (rest & Hrem & Hperm).
  assert (Hunfold :
    yield_completed_futures ready (S fuel) asked futures =
    match yield_completed_futures ready fuel
            (snd (poll_pass ready asked futures)) rest with
    | Some (Return (later, n)) =>
        Some (Return (fst (poll_pass ready asked futures) ++ later,
                      match rest with [] => 0 | _ :: _ => 1 end + n))
    | Some (Raised e) => Some (Raised e)
    | None => None
    end).
  { destruct futures as [|f futures]; [contradiction|].
    cbn [yield_completed_futures].
    destruct (poll_pass ready asked (f :: futures)) as [yielded asked'].
    simpl in Hrem |- *. rewrite Hrem. reflexivity. }
  rewrite Hunfold. clear Hunfold.
  destruct (Nat.le_gt_cases T asked) as [Hdone|Hwait].
  - pose proof (poll_pass_all T asked futures Hready Hdone) as Hall.
    rewrite Hall in Hrem, Hperm |- *.
    rewrite remove_futures_self in Hrem. injection Hrem as <-.
    rewrite yield_completed_futures_nil.
    exists (futures ++ []), 0. rewrite app_nil_r.
    split; [reflexivity|]. split; [reflexivity|]. split; [lia | reflexivity].
  - destruct (IH (snd (poll_pass ready asked futures)) rest)
      as (later & n & Hrun & Hlater & Hn & _).
    + intros t f Ht Hf. apply Hready; [exact Ht|].
      rewrite Hperm. apply elem_of_app. right. exact Hf.
    + assert (0 < length futures) by (destruct futures; [contradiction|simpl; lia]).
      lia.
    + rewrite Hrun. eexists _, _. split; [reflexivity|].
      split; [rewrite Hlater; symmetry; exact Hperm|]. split; [|lia].
      assert (0 < length futures) by (destruct futures; [contradiction|simpl; lia]).
      destruct rest; lia.
Qed.
End CollectorFacts.

(** X9. When from some question on every outstanding future answers that
    it is ready, [yield_completed_futures] ends within one pass more than the
    questions still to wait, [list.remove] never raises, every future is
    yielded exactly once, and the loop sleeps at most once per question still
    to wait; when all futures are ready at the start they are yielded in
    submission order without a sleep. *)
Theorem yield_completed_futures_all {Future : Type} `{EqDecision Future}
        (ready : nat -> Future -> bool) (T fuel asked : nat)
        (futures : list Future) :
  (forall t f, T <= t -> f ∈ futures -> ready t f = true) ->
  T - asked < fuel ->
  exists yielded sleeps,
    yield_completed_futures ready fuel asked futures
      = Some (Return (yielded, sleeps)) /\
    yielded ≡ₚ futures /\ sleeps <= T - asked /\
    (T <= asked -> yielded = futures).
Proof. intros Hready Hfuel. apply yield_completed_futures_ends; assumption. Qed.

Lemma yield_completed_futures_all_witness :
  (forall t f, 2 <= t -> f ∈ [2; 0; 1] -> (f <=? t) = true) /\
  2 - 0 < 3 /\
  yield_completed_futures (fun t f => f <=? t) 3 0 [2; 0; 1]
    = Some (Return ([0; 1; 2], 1)) /\
  exists yielded sleeps,
    yield_completed_futures (fun t f => f <=? t) 3 0 [2; 0; 1]
      = Some (Return (yielded, sleeps)) /\
    yielded ≡ₚ [2; 0; 1].
Proof.
  assert (Hready : forall t f, 2 <= t -> f ∈ [2; 0; 1] -> (f <=? t) = true).
  { intros t f Ht Hf. apply Nat.leb_le.
    repeat (apply elem_of_cons in Hf as [->|Hf]; [lia|]). inversion Hf. }
  assert (Hfuel : 2 - 0 < 3) by lia.
  split; [exact Hready|]. split; [exact Hfuel|]. split; [reflexivity|].
  destruct (yield_completed_futures_all (fun t f => f <=? t) 2 3 0 [2; 0; 1]
              Hready Hfuel) as (yielded & sleeps & Hrun & Hperm & _).
  exists yielded, sleeps. split; [exact Hrun | exact Hperm].
Defined.

(** ** The figures of the summary agree *)

Lemma group_add_sum (key : string) (groups : list (string * nat)) :
  sum_list_with snd (group_add key groups) = S (sum_list_with snd groups).
Proof.
  induction groups as [|[k c] groups IH]; simpl; [reflexivity|].
  destruct (String.compare key k); simpl; rewrite ?IH; lia.
Qed.

Lemma groupby_size_sum (keys : list string) :
  sum_list_with snd (groupby_size keys) = length keys.
Proof.
  unfold groupby_size.
  assert (H : forall groups,
             sum_list_with snd
               (fold_left (fun groups key => group_add key groups) keys groups)
             = sum_list_with snd groups + length keys).
  { induction keys as [|key keys IH]; intros groups; simpl; [lia|].
    rewrite IH, group_add_sum. lia. }
  rewrite H. reflexivity.
Qed.

Lemma sum_list_with_take {A : Type} (f : A -> nat) (n : nat) (l : list A) :
  sum_list_with f (take n l) <= sum_list_with f l.
Proof.
  rewrite <- (take_drop n l) at 2. rewrite sum_list_with_app. lia.
Qed.

Lemma sum_list_with_map_snd (groups : list (string * nat)) :
  sum_list (List.map snd groups) = sum_list_with snd groups.
Proof. induction groups as [|g groups IH]; simpl; [reflexivity|]. rewrite IH. reflexivity. Qed.

(** X10. In the summary the number of files is the number of per-file
    counts, every per-file count is positive, the per-file counts add up to
    the number of statements, and the counts of the listed file names add up
    to no more than that number, and to exactly that number when there are at
    most ten distinct names. *)
Theorem provide_output_totals
        (sort_values : list (string * nat) -> list (string * nat))
        (disk : gmap string DataFrame) (df : DataFrame) :
  (forall l, sort_values l ≡ₚ l) ->
  disk !! RESULTS_DF = Some df ->
  exists top freq_data,
    fst (provide_output sort_values disk)
      = Summary (length df) (length freq_data) top freq_data /\
    sum_list freq_data = length df /\
    Forall (fun c => 0 < c) freq_data /\
    sum_list_with snd top <= length df /\
    (length (remove_dups (List.map Filename df)) <= 10 ->
     sum_list_with snd top = length df).
Proof.
  intros Hperm Hstore.
  exists (filename_freqs sort_values df),
         (List.map snd (groupby_size (List.map Filepath df))).
  assert (Hsum : sum_list_with snd (sort_values (groupby_size (List.map Filename df)))
                 = length df).
  { rewrite Hperm, groupby_size_sum. apply length_map. }
  split; [|split; [|split; [|split]]].
  - unfold provide_output. rewrite Hstore. simpl.
    rewrite length_map, groupby_size_length. reflexivity.
  - rewrite sum_list_with_map_snd, groupby_size_sum. apply length_map.
  - destruct (groupby_size_invariant (List.map Filepath df)) as [_ Hpos].
    apply Forall_forall. intros c Hc.
    apply list_elem_of_In, in_map_iff in Hc as (g & <- & Hg).
    rewrite Forall_forall in Hpos. apply Hpos, list_elem_of_In, Hg.
  - rewrite (filename_freqs_take sort_values df), <- Hsum.
    apply sum_list_with_take.
  - intros Hfew. rewrite (filename_freqs_take sort_values df).
    rewrite take_ge; [exact Hsum|].
    rewrite Hperm, groupby_size_length. exact Hfew.
Qed.

Lemma provide_output_totals_witness :
  (forall l, sort_values_desc l ≡ₚ l) /\
  disk_with_store !! RESULTS_DF = Some [mkRow "src/a.sql" "SELECT A FROM T;"] /\
  exists top freq_data,
    fst (provide_output sort_values_desc disk_with_store)
      = Summary 1 (length freq_data) top freq_data /\
    sum_list freq_data = 1.
Proof.
  assert (Hstore : disk_with_store !! RESULTS_DF
                   = Some [mkRow "src/a.sql" "SELECT A FROM T;"]).
  { vm_compute. reflexivity. }
  split; [exact sort_values_desc_perm|]. split; [exact Hstore|].
  destruct (provide_output_totals sort_values_desc disk_with_store _
              sort_values_desc_perm Hstore)
    as (top & freq_data & Hout & Hsum & _).
  exists top, freq_data. split; [exact Hout | exact Hsum].
Defined.

(** ** A path and its text *)

Lemma append_nil_r (s : string) : (s ++ "")%string = s.
Proof. induction s as [|a s IH]; [reflexivity|]. rewrite append_cons, IH. reflexivity. Qed.

Lemma has_slash_false (c : string) :
  has_slash c = false -> all_chars (fun a => negb (Ascii.eqb a "/")) c = true.
Proof. unfold has_slash. apply negb_false_iff. Qed.

Lemma split_on_sep (cur rest : string) :
  split_on "/" cur (String "/" rest) = cur :: split_on "/" "" rest.
Proof. reflexivity. Qed.

(** A component is read up to the next separator. *)
Lemma split_on_app (c cur rest : string) :
  has_slash c = false ->
  split_on "/" cur (c ++ rest) = split_on "/" (cur ++ c) rest.
Proof.
  intros Hc. apply has_slash_false in Hc. revert cur.
  induction c as [|a c IH]; intros cur.
  - rewrite append_nil_r. reflexivity.
  - simpl in Hc. apply andb_true_iff in Hc as [Ha Hc].
    rewrite append_cons. cbn [split_on].
    apply negb_true_iff in Ha. rewrite Ha, (IH Hc), append_assoc. reflexivity.
Qed.

Lemma split_concat (cs : list string) :
  cs <> [] -> Forall component_ok cs ->
  split_on "/" "" (String.concat "/" cs) = cs.
Proof.
  induction cs as [|c cs IH]; intros Hne Hok; [contradiction|].
  apply Forall_cons in Hok as [(_ & _ & Hc) Hok].
  destruct cs as [|c' cs].
  - simpl. rewrite <- (append_nil_r c) at 1.
    rewrite (split_on_app c "" "" Hc). reflexivity.
  - change (String.concat "/" (c :: c' :: cs))
      with (c ++ String "/" (String.concat "/" (c' :: cs)))%string.
    rewrite (split_on_app c "" _ Hc), split_on_sep.
    rewrite IH by (auto; discriminate). reflexivity.
Qed.

Lemma filter_components (cs : list string) :
  Forall component_ok cs -> List.filter is_component cs = cs.
Proof.
  induction 1 as [|c cs (Hne & Hdot & _) _ IH]; [reflexivity|].
  cbn [List.filter].
  assert (Hc : is_component c = true).
  { unfold is_component. apply String.eqb_neq in Hne, Hdot.
    rewrite Hne, Hdot. reflexivity. }
  rewrite Hc, IH. reflexivity.
Qed.

Lemma component_first (c : string) :
  component_ok c -> exists a c', c = String a c' /\ a <> "/"%char.
Proof.
  intros (Hne & _ & Hs). destruct c as [|a c']; [contradiction|].
  exists a, c'. split; [reflexivity|].
  apply has_slash_false in Hs. simpl in Hs.
  apply andb_true_iff in Hs as [Ha _]. apply negb_true_iff in Ha.
  apply Ascii.eqb_neq, Ha.
Qed.

Lemma prefix_slash_concat (cs : list string) :
  Forall component_ok cs -> String.prefix "/" (String.concat "/" cs) = false.
Proof.
  intros Hok. destruct Hok as [|c cs Hc Hok]; [reflexivity|].
  destruct (component_first c Hc) as (a & c' & -> & Ha).
  assert (Hhead : exists t, String.concat "/" (String a c' :: cs) = String a t).
  { destruct cs; simpl; eauto. }
  destruct Hhead as [t ->]. cbn [String.prefix].
  destruct (ascii_dec "/" a) as [<-|]; [contradiction | reflexivity].
Qed.

Lemma Path_str_relative (c : string) (cs : list string) :
  c <> "/" -> Path_str (mkPath (c :: cs)) = String.concat "/" (c :: cs).
Proof.
  intros Hc. unfold Path_str. cbn [parts].
  destruct c as [|[[] [] [] [] [] [] [] []] [|a c']];
    try reflexivity; contradiction.
Qed.

(** X11. For a path as a walk gives it (components that are not empty, not
    a single dot and hold no separator, after the root anchor if there is
    one), reading back the text of the path gives the path; so the file name
    under which the reporter counts a row is the name of the file that was
    scanned. *)
Theorem Path_of_str_Path_str (p : Path) :
  path_ok p ->
  Path_of_str (Path_str p) = p /\
  (forall sql, Filename (mkRow (Path_str p) sql) = Path_name p).
Proof.
  intros Hok.
  assert (Hround : Path_of_str (Path_str p) = p).
  { destruct p as [ps]. unfold path_ok in Hok. cbn [parts] in Hok.
    destruct Hok as [Hok | (rest & -> & Hok)].
    - destruct ps as [|c cs]; [reflexivity|].
      assert (Hc : c <> "/").
      { intros ->. apply Forall_cons in Hok as [(_ & _ & Hs) _]. discriminate Hs. }
      rewrite (Path_str_relative c cs Hc). unfold Path_of_str.
      rewrite split_concat by (auto; discriminate).
      rewrite filter_components, prefix_slash_concat by exact Hok. reflexivity.
    - unfold Path_str. cbn [parts].
      change ("/" ++ String.concat "/" rest)%string
        with (String "/" (String.concat "/" rest)).
      unfold Path_of_str. rewrite split_on_sep.
      assert (Hroot : String.prefix "/" (String "/" (String.concat "/" rest)) = true).
      { cbn [String.prefix]. destruct (ascii_dec "/" "/"); [|contradiction].
        destruct (String.concat "/" rest); reflexivity. }
      rewrite Hroot.
      destruct rest as [|c cs]; [reflexivity|].
      rewrite split_concat by (auto; discriminate).
      change (List.filter is_component ("" :: c :: cs))
        with (List.filter is_component (c :: cs)).
      rewrite filter_components by exact Hok. reflexivity. }
  split; [exact Hround|].
  intros sql. unfold Filename. cbn [Filepath]. rewrite Hround. reflexivity.
Qed.

Lemma Path_of_str_Path_str_witness :
  path_ok demo_file /\
  Path_of_str (Path_str demo_file) = demo_file /\
  Filename demo_row = "a.sql".
Proof.
  assert (Hok : path_ok demo_file).
  { left. repeat constructor; discriminate. }
  split; [exact Hok|].
  destruct (Path_of_str_Path_str demo_file Hok) as [Hround Hname].
  split; [exact Hround|]. exact (Hname "SELECT A FROM T;").
Defined.

(** ** The suffix of a path *)

Lemma rfind_dot_from_shift (s : string) (i : nat) (found : option nat) :
  rfind_dot_from i found s =
  match rfind_dot s with
  | Some j => Some (i + j)
  | None => found
  end.
Proof.
  unfold rfind_dot. revert i found. induction s as [|a s IH]; intros i found.
  - reflexivity.
  - cbn [rfind_dot_from]. rewrite (IH (S i)), (IH 1).
    destruct (rfind_dot_from 0 None s) as [j|].
    + f_equal. lia.
    + destruct (Ascii.eqb a "."); [f_equal; lia | reflexivity].
Qed.

Lemma rfind_dot_cons (a : ascii) (s : string) :
  rfind_dot (String a s) =
  match rfind_dot s with
  | Some j => Some (S j)
  | None => if Ascii.eqb a "." then Some 0 else None
  end.
Proof.
  unfold rfind_dot at 1. cbn [rfind_dot_from]. rewrite rfind_dot_from_shift.
  destruct (rfind_dot s); reflexivity.
Qed.

Lemma rfind_dot_None (s : string) :
  rfind_dot s = None -> all_chars (fun a => negb (Ascii.eqb a ".")) s = true.
Proof.
  induction s as [|a s IH]; [reflexivity|]. rewrite rfind_dot_cons.
  destruct (rfind_dot s); [discriminate|].
  destruct (Ascii.eqb a ".") eqn:Ha; [discriminate|].
  intros _. simpl. rewrite Ha, IH; reflexivity.
Qed.

(** [rfind] gives the place of the last dot. *)
Lemma rfind_dot_Some (s : string) (i : nat) :
  rfind_dot s = Some i ->
  exists pre post,
    s = (pre ++ String "." post)%string /\ String.length pre = i /\
    all_chars (fun a => negb (Ascii.eqb a ".")) post = true.
Proof.
  revert i. induction s as [|a s IH]; intros i; [discriminate|].
  rewrite rfind_dot_cons. destruct (rfind_dot s) as [j|] eqn:Hs.
  - intros [= <-]. destruct (IH j eq_refl) as (pre & post & -> & Hlen & Hpost).
    exists (String a pre), post. simpl. rewrite Hlen. auto.
  - destruct (Ascii.eqb_spec a ".") as [->|]; [|discriminate].
    intros [= <-]. exists "", s. split; [reflexivity|]. split; [reflexivity|].
    apply rfind_dot_None, Hs.
Qed.

Lemma length_append (s1 s2 : string) :
  String.length (s1 ++ s2) = String.length s1 + String.length s2.
Proof.
  induction s1 as [|a s1 IH]; [reflexivity|].
  rewrite append_cons. simpl. rewrite IH. reflexivity.
Qed.

Lemma substring_skip (pre t : string) (m : nat) :
  String.substring (String.length pre) m (pre ++ t) = String.substring 0 m t.
Proof.
  induction pre as [|a pre IH]; [reflexivity|].
  rewrite append_cons. simpl. exact IH.
Qed.

Lemma substring_full (t : string) :
  String.substring 0 (String.length t) t = t.
Proof. induction t as [|a t IH]; simpl; [reflexivity|]. rewrite IH. reflexivity. Qed.

Lemma Path_suffix_cases (p : Path) :
  Path_suffix p = "" \/
  exists stem ext,
    Path_name p = (stem ++ String "." ext)%string /\
    Path_suffix p = String "." ext /\
    stem <> "" /\ ext <> "" /\
    all_chars (fun a => negb (Ascii.eqb a ".")) ext = true.
Proof.
  unfold Path_suffix.
  destruct (rfind_dot (Path_name p)) as [i|] eqn:Hdot; [|left; reflexivity].
  destruct (rfind_dot_Some _ _ Hdot) as (pre & post & Hname & Hlen & Hpost).
  destruct ((0 <? i) && (i <? String.length (Path_name p) - 1)) eqn:Hcond;
    [|left; reflexivity].
  apply andb_true_iff in Hcond as [Hi Hj].
  apply Nat.ltb_lt in Hi, Hj.
  right. exists pre, post. rewrite Hname in Hj |- *.
  rewrite length_append in Hj |- *. simpl in Hj |- *. subst i.
  split; [reflexivity|]. split.
  - replace (String.length pre + S (String.length post) - String.length pre)
      with (String.length (String "." post)) by (simpl; lia).
    rewrite substring_skip. apply substring_full.
  - split; [intros ->; simpl in Hi; lia|].
    split; [intros ->; simpl in Hj; lia | exact Hpost].
Qed.

(** X12. The suffix of a path is empty, or it is the last dot of the file
    name with what follows it, where something stands before that dot and
    something without a dot after it: a name without a dot, a name whose only
    dot comes first and a name that ends with a dot have the empty suffix.  So
    a filter entry that is not empty and does not begin with a dot selects no
    file at all. *)
Theorem Path_suffix_shape (p : Path) :
  (Path_suffix p = "" \/
   exists stem ext,
     Path_name p = (stem ++ String "." ext)%string /\
     Path_suffix p = String "." ext /\
     stem <> "" /\ ext <> "" /\
     all_chars (fun a => negb (Ascii.eqb a ".")) ext = true) /\
  (forall (is_dir : Path -> bool) (ext : string) (glob : list Path),
     ext <> "" -> String.prefix "." ext = false ->
     yield_files is_dir (Some [ext]) glob = []).
Proof.
  split; [apply Path_suffix_cases|].
  intros is_dir ext glob Hne Hdot.
  induction glob as [|file glob IH]; [reflexivity|]. cbn [yield_files].
  replace (skip_file is_dir (Some [ext]) file) with true; [exact IH|].
  symmetry. unfold skip_file.
  rewrite (bool_decide_eq_false_2 (Path_suffix file ∈ [ext])).
  - simpl. rewrite !orb_true_r. reflexivity.
  - intros Hin. apply list_elem_of_singleton in Hin.
    destruct (Path_suffix_cases file) as [He | (stem & e & _ & He & _)];
      rewrite He in Hin; subst ext; [contradiction|].
    cbn [String.prefix] in Hdot.
    destruct (ascii_dec "." "."); [|contradiction].
    destruct e; discriminate.
Qed.

(** ** Matches do not overlap *)

Lemma in_order_cons (a : ascii) (s : string) (ms : list string) :
  in_order s ms -> in_order (String a s) ms.
Proof.
  destruct ms as [|m ms]; [auto|]. simpl.
  intros (pre & rest & -> & Hrest). exists (String a pre), rest. auto.
Qed.

Lemma substring0_split (n : nat) (s : string) :
  n <= String.length s ->
  exists rest, s = (String.substring 0 n s ++ rest)%string.
Proof.
  revert s. induction n as [|n IH]; intros s Hn.
  - exists s. destruct s; reflexivity.
  - destruct s as [|a s]; simpl in Hn; [lia|].
    destruct (IH s ltac:(lia)) as (rest & Hrest).
    exists rest. simpl. rewrite append_cons, <- Hrest. reflexivity.
Qed.

Lemma append_nil_l (t : string) : ("" ++ t)%string = t.
Proof. reflexivity. Qed.

Lemma finditer_from_in_order (p : list re_item) (s : string) :
  forall skip pre t,
    s = (pre ++ t)%string -> String.length pre = skip ->
    in_order t (finditer_from p skip s).
Proof.
  induction s as [|a s IH]; intros skip pre t Hs Hlen.
  - destruct pre as [|a' pre]; [|rewrite append_cons in Hs; discriminate].
    rewrite append_nil_l in Hs. simpl in Hlen. subst t skip. simpl.
    destruct (match_here p ""); simpl; [|exact I].
    exists "", "". auto.
  - cbn [finditer_from]. destruct skip as [|k].
    + destruct pre as [|a' pre]; [|discriminate].
      rewrite append_nil_l in Hs. subst t.
      destruct (match_here p (String a s)) as [n|] eqn:E.
      * pose proof (match_here_bounds _ _ _ E) as [_ Hn].
        destruct n as [|n].
        -- cbn [in_order]. exists (String a ""), s. split; [reflexivity|].
           apply (IH 0 "" s); reflexivity.
        -- simpl in Hn. destruct (substring0_split n s ltac:(lia)) as (rest & Hrest).
           cbn [in_order]. exists "", rest. split.
           ++ rewrite append_nil_l. cbn [String.substring].
              rewrite append_cons, <- Hrest. reflexivity.
           ++ replace (S n - 1) with n by lia.
              apply (IH n (String.substring 0 n s) rest Hrest).
              apply length_substring0. lia.
      * apply in_order_cons. apply (IH 0 "" s); reflexivity.
    + destruct pre as [|a' pre]; [discriminate|].
      rewrite append_cons in Hs. injection Hs as _ Hs. simpl in Hlen.
      apply (IH k pre t Hs). lia.
Qed.

(** X13. The statements of the rows [process_file] returns occur in the
    text of the file in the order of the rows, one after the other and without
    overlap: no part of the text is counted in two rows. *)
Theorem process_file_matches_in_order (env : Env) (file : Path)
        (bytes : list Byte.byte) (rows : DataFrame) :
  read_bytes env file = Return bytes ->
  process_file env file = Return rows ->
  in_order (upper (bytes_str bytes)) (List.map Sql rows).
Proof.
  intros Hread. rewrite (process_file_rows env file bytes Hread).
  intros [= <-]. rewrite List.map_map. simpl. rewrite List.map_id.
  apply (finditer_from_in_order SQL_PATTERN _ 0 ""); reflexivity.
Qed.

Lemma process_file_matches_in_order_witness :
  read_bytes (reading two_statements) demo_file = Return two_statements /\
  process_file (reading two_statements) demo_file
    = Return [mkRow "src/a.sql" "SELECT A FROM T;";
              mkRow "src/a.sql" "SELECT B FROM U WHERE X;"] /\
  in_order (upper (bytes_str two_statements))
           ["SELECT A FROM T;"; "SELECT B FROM U WHERE X;"].
Proof.
  assert (Hrun : process_file (reading two_statements) demo_file
                 = Return [mkRow "src/a.sql" "SELECT A FROM T;";
                           mkRow "src/a.sql" "SELECT B FROM U WHERE X;"]).
  { vm_compute. reflexivity. }
  split; [reflexivity|]. split; [exact Hrun|].
  exact (process_file_matches_in_order (reading two_statements) demo_file
           two_statements _ eq_refl Hrun).
Defined.

(** * The text that is searched *)

Lemma upper_repr_byte (quote : ascii) (c : Byte.byte) :
  quote = squote \/ quote = dquote ->
  upper (repr_byte quote c) = printed_byte quote c.
Proof.
  intros [-> | ->]; destruct c; vm_compute; reflexivity.
Qed.

Lemma upper_repr_body (quote : ascii) (bytes : list Byte.byte) :
  quote = squote \/ quote = dquote ->
  upper (repr_body quote bytes) = printed_body quote bytes.
Proof.
  intros Hq. induction bytes as [|c bytes IH]; [reflexivity|].
  cbn [repr_body printed_body].
  rewrite upper_app, IH, (upper_repr_byte quote c Hq). reflexivity.
Qed.

(** The text is a [B], the quote, the bytes as they are printed, and the
    quote. *)
Lemma upper_bytes_str (bytes : list Byte.byte) :
  upper (bytes_str bytes) =
  String "B" (String (repr_quote bytes)
    (printed_body (repr_quote bytes) bytes ++ String (repr_quote bytes) ""))%string.
Proof.
  pose proof (repr_quote_cases bytes) as Hq.
  unfold bytes_str. cbn [upper]. rewrite upper_app. cbn [upper].
  rewrite (upper_repr_body _ bytes Hq).
  destruct Hq as [-> | ->]; reflexivity.
Qed.

Lemma scanned_at (p : list re_item) (s pre m rest : string) (ms : list string) :
  s = (pre ++ m ++ rest)%string ->
  (forall x y, pre = (x ++ y)%string -> y <> "" ->
               match_here p (y ++ m ++ rest) = None) ->
  match_here p (m ++ rest) = Some (String.length m) ->
  m <> "" ->
  scanned p rest ms ->
  scanned p s (m :: ms).
Proof. intros ->. apply scanned_match. Qed.

(** A position where the pattern does not match can be put in front. *)
Lemma scanned_cons (p : list re_item) (a : ascii) (s : string) (ms : list string) :
  match_here p (String a s) = None ->
  scanned p s ms -> scanned p (String a s) ms.
Proof.
  intros Hnone Hs. destruct Hs as [s Hall | pre m rest ms Hearly Hm Hne Hrest].
  - apply scanned_none. intros pre post Heq. destruct pre as [|a' pre].
    + rewrite append_nil_l in Heq. subst post. exact Hnone.
    + rewrite append_cons in Heq. injection Heq as _ Heq.
      exact (Hall pre post Heq).
  - apply (scanned_at p _ (String a pre) m rest ms); auto.
    intros x y Heq Hy. destruct x as [|a' x].
    + rewrite append_nil_l in Heq. subst y. rewrite append_cons. exact Hnone.
    + rewrite append_cons in Heq. injection Heq as _ Heq.
      exact (Hearly x y Heq Hy).
Qed.

(** The scan finds the first match, then the first match after it, and so
    on, and stops only when the pattern matches nowhere in what is left. *)
Lemma finditer_from_scanned (p : list re_item) (s : string) :
  1 <= length p ->
  forall skip pre t,
    s = (pre ++ t)%string -> String.length pre = skip ->
    scanned p t (finditer_from p skip s).
Proof.
  intros Hp. induction s as [|a s IH]; intros skip pre t Hs Hlen.
  - destruct pre as [|a' pre]; [|rewrite append_cons in Hs; discriminate].
    rewrite append_nil_l in Hs. simpl in Hlen. subst t skip. simpl.
    destruct (match_here p "") as [n|] eqn:E.
    { apply match_here_bounds in E. simpl in E. lia. }
    apply scanned_none. intros pre post Heq.
    destruct pre as [|a' pre]; [|rewrite append_cons in Heq; discriminate].
    rewrite append_nil_l in Heq. subst post. exact E.
  - cbn [finditer_from]. destruct skip as [|k].
    + destruct pre as [|a' pre]; [|discriminate].
      rewrite append_nil_l in Hs. subst t.
      destruct (match_here p (String a s)) as [n|] eqn:E.
      * pose proof (match_here_bounds _ _ _ E) as [Hn1 Hn2].
        destruct n as [|n]; [lia|]. simpl in Hn2.
        destruct (substring0_split n s ltac:(lia)) as (rest & Hrest).
        assert (Hwhole : String a s
                         = (String.substring 0 (S n) (String a s) ++ rest)%string).
        { cbn [String.substring]. rewrite append_cons, <- Hrest. reflexivity. }
        assert (Hm : String.length (String.substring 0 (S n) (String a s)) = S n).
        { apply length_substring0. simpl. lia. }
        apply (scanned_at p _ "" (String.substring 0 (S n) (String a s)) rest).
        -- rewrite append_nil_l. exact Hwhole.
        -- intros x y Heq Hy. destruct x; [|discriminate].
           rewrite append_nil_l in Heq. subst y. contradiction.
        -- rewrite <- Hwhole, Hm. exact E.
        -- intros Hempty. rewrite Hempty in Hm. discriminate Hm.
        -- replace (S n - 1) with n by lia.
           apply (IH n (String.substring 0 n s) rest Hrest).
           apply length_substring0. lia.
      * apply scanned_cons; [exact E|]. apply (IH 0 "" s); reflexivity.
    + destruct pre as [|a' pre]; [discriminate|].
      rewrite append_cons in Hs. injection Hs as _ Hs. simpl in Hlen.
      apply (IH k pre t Hs). lia.
Qed.

(** C5, as stated, fails on a statement written on two lines: in the decoded
    text the pattern matches nowhere, the dot not taking the line feed, while
    [process_file] returns the statement with the line feed written as a
    backslash and an [N]. *)
Lemma process_file_decoded_counterexample :
  upper (decoded_content two_lines)
    = ("SELECT A" ++ String line_feed "FROM T;")%string /\
  finditer SQL_PATTERN (upper (decoded_content two_lines)) = [] /\
  process_file (reading two_lines) demo_file
    = Return [mkRow "src/a.sql" "SELECT A\NFROM T;"].
Proof.
  split; [vm_compute; reflexivity|].
  split; vm_compute; reflexivity.
Qed.

(** C5 (amended). Whatever bytes the read returns, valid UTF-8 or not,
    [process_file] returns, and what it searches is not decoded content but
    the uppercased printed form of the bytes: a [B], a quote, the bytes and
    the quote, where a printable byte other than the backslash and the quote
    in use stands as its character, uppercased, and every other byte is
    written out: tab, line feed and carriage return as a backslash and a
    letter, the other bytes below 32 or above 126 as a four-character
    placeholder, the backslash and the quote after a backslash.  The text
    holds printable ASCII only.  The rows carry the path of the file and, in
    order, the first match of the pattern in the text, the first match after
    it, and so on, until the pattern matches nowhere in what is left; when it
    matches nowhere at all the result is the empty table, not an error. *)
Theorem process_file_printed_form (env : Env) (file : Path)
        (bytes : list Byte.byte) :
  read_bytes env file = Return bytes ->
  exists rows,
    process_file env file = Return rows /\
    Forall (fun row => Filepath row = Path_str file) rows /\
    scanned SQL_PATTERN (upper (bytes_str bytes)) (List.map Sql rows) /\
    upper (bytes_str bytes) =
      String "B" (String (repr_quote bytes)
        (printed_body (repr_quote bytes) bytes
         ++ String (repr_quote bytes) ""))%string /\
    all_chars printable (upper (bytes_str bytes)) = true /\
    ((forall pre post, upper (bytes_str bytes) = (pre ++ post)%string ->
                       match_here SQL_PATTERN post = None) ->
     rows = []).
Proof.
  intros Hread.
  exists (List.map (mkRow (Path_str file))
                   (finditer SQL_PATTERN (upper (bytes_str bytes)))).
  split; [apply process_file_rows, Hread|].
  split.
  { apply Forall_forall. intros row Hrow.
    apply list_elem_of_In, in_map_iff in Hrow as (m & <- & _). reflexivity. }
  split.
  { rewrite List.map_map. simpl. rewrite List.map_id.
    apply (finditer_from_scanned SQL_PATTERN _ ltac:(simpl; lia) 0 "");
      reflexivity. }
  split; [apply upper_bytes_str|].
  split; [apply bytes_str_printable|].
  intros Hnone. rewrite (finditer_no_match _ _ Hnone). reflexivity.
Qed.

Lemma process_file_printed_form_witness :
  read_bytes (reading two_lines) demo_file = Return two_lines /\
  upper (bytes_str two_lines) = "B'SELECT A\NFROM T;'" /\
  exists rows,
    process_file (reading two_lines) demo_file = Return rows /\
    scanned SQL_PATTERN (upper (bytes_str two_lines)) (List.map Sql rows).
Proof.
  split; [reflexivity|]. split; [vm_compute; reflexivity|].
  destruct (process_file_printed_form (reading two_lines) demo_file two_lines
              eq_refl) as (rows & Hrun & _ & Hscan & _).
  exists rows. split; [exact Hrun | exact Hscan].
Defined.

(** * The path of an artifact *)























(** * What a worker call does to the disk *)




(** * No row is lost or repeated by a run *)











(** * A run without a failed batch finds every match *)





